(** * Conversation orchestration of cli_llm.rs

    Shallow embedding of the two front ends of the repository:
    - [src/src/gui.rs]: the egui [ChatApp], its [update] frame, the
      background thread started by [send_request] and the mpsc channel
      between them;
    - [src/src/main.rs]: the terminal read/send/print loop.

    Instants are modelled as [nat] (a frame carries its own [Instant::now()]).
    The HTTP exchange is an input of the model: its outcome is one of
    transport error, or a status with a body, where the body is either a read
    failure or its text, given by what [serde_json::from_str] makes of it. *)

From stdpp Require Import base gmap list strings.
From Stdlib Require Import Ascii NArith.
Open Scope string_scope.
Open Scope nat_scope.
Open Scope list_scope.

(* ------------------------------------------------------------------ *)
(** ** Wire types (gui.rs lines 13-53, main.rs lines 6-43) *)

(** [ChatMessage]: a message of the model response (role, content). *)
Record ChatMessage := mkChatMessage {
  cm_role : string;
  cm_content : string
}.

(** [ChatChoice]: one element of [choices]. *)
Record ChatChoice := mkChatChoice {
  ch_index : option N;
  ch_message : ChatMessage;
  ch_finish_reason : option string
}.

(** [OpenRouterChatResponse]. *)
Record OpenRouterChatResponse := mkResponse {
  resp_id : string;
  resp_object : string;
  resp_created : N;
  resp_choices : list ChatChoice
}.

(** The body of an HTTP response: [response.text()] fails, or it yields a
    text whose decoding by [serde_json::from_str] is [Some r] or fails. *)
Inductive Body :=
| BodyReadError
| BodyText (decoded : option OpenRouterChatResponse).

(** The outcome of [client.post(..).send().await]. *)
Inductive HttpResult :=
| TransportError
| Response (status : nat) (body : Body).

(** [StatusCode::is_success]: 200..=299. *)
Definition is_success (status : nat) : bool :=
  (200 <=? status) && (status <=? 299).

(* ------------------------------------------------------------------ *)
(** ** Rust string helpers used by both front ends

    A Rust [String] or [&str] is modelled by its bytes, which are UTF-8:
    [string] here is the byte sequence, one [ascii] per byte (any of the 256
    values). Byte-wise operations ([is_empty], [eq_ignore_ascii_case],
    [starts_with], [contains], [lines]) are modelled on the bytes directly;
    [trim] decodes chars at both ends as core::str does. *)

(** [core::unicode::White_Space], for chars above '\x7f'. *)
Definition white_space (c : N) : bool :=
  (c =? 0x85)%N || (c =? 0xA0)%N || (c =? 0x1680)%N ||
  ((0x2000 <=? c)%N && (c <=? 0x200A)%N) ||
  (c =? 0x2028)%N || (c =? 0x2029)%N || (c =? 0x202F)%N ||
  (c =? 0x205F)%N || (c =? 0x3000)%N.

(** [char::is_whitespace]:
    [match self { ' ' | '\x09'..='\x0d' => true, c => c > '\x7f' && unicode::White_Space(c) }]. *)
Definition is_whitespace (c : N) : bool :=
  (c =? 32)%N || ((9 <=? c)%N && (c <=? 13)%N) || ((127 <? c)%N && white_space c).

(** The same chars, listed. *)
Definition whitespace_chars : list N :=
  [9; 10; 11; 12; 13; 32; 0x85; 0xA0; 0x1680;
   0x2000; 0x2001; 0x2002; 0x2003; 0x2004; 0x2005; 0x2006; 0x2007; 0x2008; 0x2009; 0x200A;
   0x2028; 0x2029; 0x202F; 0x205F; 0x3000]%N.

Definition byte (a : ascii) : N := N_of_ascii a.

(** [utf8_first_byte], [utf8_acc_cont_byte] and [utf8_is_cont_byte] of
    core::str::validations. *)
Definition utf8_first_byte (b : N) (width : N) : N := N.land b (N.shiftr 0x7F width).
Definition utf8_acc_cont_byte (ch b : N) : N := N.lor (N.shiftl ch 6) (N.land b 0x3F).
Definition utf8_is_cont_byte (b : N) : bool := (0x80 <=? b)%N && (b <? 0xC0)%N.

(** [next_code_point] of core::str::validations: the first char and the
    bytes after it. Its reads past the lead byte are unchecked in Rust (the
    bytes are valid UTF-8, so they are there); here a missing byte gives
    [None]. *)
Definition next_char (s : string) : option (N * string) :=
  match s with
  | EmptyString => None
  | String a r1 =>
      let x := byte a in
      if (x <? 128)%N then Some (x, r1) else
      let init := utf8_first_byte x 2 in
      match r1 with
      | EmptyString => None
      | String b r2 =>
          let y := byte b in
          if (x <? 0xE0)%N then Some (utf8_acc_cont_byte init y, r2) else
          match r2 with
          | EmptyString => None
          | String c r3 =>
              let y_z := utf8_acc_cont_byte (N.land y 0x3F) (byte c) in
              if (x <? 0xF0)%N then Some (N.lor (N.shiftl init 12) y_z, r3) else
              match r3 with
              | EmptyString => None
              | String d r4 =>
                  Some (N.lor (N.shiftl (N.land init 7) 18) (utf8_acc_cont_byte y_z (byte d)), r4)
              end
          end
      end
  end.

Fixpoint rev_str (s : string) (acc : string) : string :=
  match s with
  | EmptyString => acc
  | String c rest => rev_str rest (String c acc)
  end.

(** [next_code_point_reverse] of core::str::validations, on the bytes read
    from the end ([t] is the reversed string): the last char and the
    reversed bytes before it. *)
Definition next_char_rev (t : string) : option (string * N) :=
  match t with
  | EmptyString => None
  | String a r1 =>
      let w := byte a in
      if (w <? 128)%N then Some (r1, w) else
      match r1 with
      | EmptyString => None
      | String b r2 =>
          let z := byte b in
          if negb (utf8_is_cont_byte z) then
            Some (r2, utf8_acc_cont_byte (utf8_first_byte z 2) w) else
          match r2 with
          | EmptyString => None
          | String c r3 =>
              let y := byte c in
              if negb (utf8_is_cont_byte y) then
                Some (r3, utf8_acc_cont_byte (utf8_acc_cont_byte (utf8_first_byte y 3) z) w) else
              match r3 with
              | EmptyString => None
              | String d r4 =>
                  Some (r4, utf8_acc_cont_byte (utf8_acc_cont_byte
                              (utf8_acc_cont_byte (utf8_first_byte (byte d) 4) y) z) w)
              end
          end
      end
  end.

(** The last char of [s] and the bytes before it. *)
Definition next_char_back (s : string) : option (string * N) :=
  match next_char_rev (rev_str s EmptyString) with
  | Some (rest, c) => Some (rev_str rest EmptyString, c)
  | None => None
  end.

(** [str::trim_start]: drop chars from the front while [is_whitespace].
    Each step drops at least one byte, so [String.length s] steps suffice. *)
Fixpoint trim_start_from (fuel : nat) (s : string) : string :=
  match fuel with
  | O => s
  | S k =>
      match next_char s with
      | Some (c, rest) => if is_whitespace c then trim_start_from k rest else s
      | None => s
      end
  end.

Definition trim_start (s : string) : string := trim_start_from (String.length s) s.

(** [str::trim_end]: drop chars from the back while [is_whitespace]. *)
Fixpoint trim_end_from (fuel : nat) (s : string) : string :=
  match fuel with
  | O => s
  | S k =>
      match next_char_back s with
      | Some (rest, c) => if is_whitespace c then trim_end_from k rest else s
      | None => s
      end
  end.

Definition trim_end (s : string) : string := trim_end_from (String.length s) s.

(** [str::trim], i.e. [trim_matches(char::is_whitespace)]: the first char
    that is not whitespace is looked for from the front, then the last one
    from the back. *)
Definition trim (s : string) : string := trim_end (trim_start s).

(** [char::encode_utf8] ([encode_utf8_raw]): the bytes of a char. *)
Definition utf8_encode (c : N) : string :=
  let b n := ascii_of_N n in
  if (c <? 0x80)%N then String (b c) EmptyString
  else if (c <? 0x800)%N then
    String (b (N.lor (N.land (N.shiftr c 6) 0x1F) 0xC0))
      (String (b (N.lor (N.land c 0x3F) 0x80)) EmptyString)
  else if (c <? 0x10000)%N then
    String (b (N.lor (N.land (N.shiftr c 12) 0x0F) 0xE0))
      (String (b (N.lor (N.land (N.shiftr c 6) 0x3F) 0x80))
        (String (b (N.lor (N.land c 0x3F) 0x80)) EmptyString))
  else
    String (b (N.lor (N.land (N.shiftr c 18) 0x07) 0xF0))
      (String (b (N.lor (N.land (N.shiftr c 12) 0x3F) 0x80))
        (String (b (N.lor (N.land (N.shiftr c 6) 0x3F) 0x80))
          (String (b (N.lor (N.land c 0x3F) 0x80)) EmptyString))).

(** The bytes of the [String] made of the chars [cs]. *)
Fixpoint utf8_str (cs : list N) : string :=
  match cs with
  | [] => EmptyString
  | c :: cs' => String.append (utf8_encode c) (utf8_str cs')
  end.

Definition is_empty (s : string) : bool :=
  match s with EmptyString => true | _ => false end.

Definition ascii_lower (c : ascii) : ascii :=
  let n := nat_of_ascii c in
  if (65 <=? n) && (n <=? 90) then ascii_of_nat (n + 32) else c.

(** [str::eq_ignore_ascii_case]. *)
Fixpoint eq_ignore_ascii_case (a b : string) : bool :=
  match a, b with
  | EmptyString, EmptyString => true
  | String c a', String d b' =>
      Ascii.eqb (ascii_lower c) (ascii_lower d) && eq_ignore_ascii_case a' b'
  | _, _ => false
  end.

(* ------------------------------------------------------------------ *)
(** ** The GUI dispatcher: the value of [result] in [send_request]
    (gui.rs lines 191-217). *)
Definition send_request_result (r : HttpResult) : option ChatMessage :=
  match r with
  | TransportError => None
  | Response status body =>
      if negb (is_success status) then None
      else match body with
           | BodyReadError => None
           | BodyText None => None
           | BodyText (Some chat_response) =>
               match resp_choices chat_response with
               | choice :: _ =>
                   Some (mkChatMessage "assistant" (cm_content (ch_message choice)))
               | [] => None
               end
           end
  end.

(* ------------------------------------------------------------------ *)
(** ** The terminal front end (main.rs lines 79-147) *)
Module Cli.

(** [ChatMessageRequest] of main.rs: no timestamp. *)
Record Msg := mkMsg { role : string; content : string }.

(** The outcome of one iteration of the [loop]: [break] on "quit",
    an error propagated out of [main] by [?], or the next iteration with the
    updated [conversation]. *)
Inductive Turn :=
| Quit
| Fatal (conversation : list Msg)
| Next (conversation : list Msg).

(** One iteration, given the line read and the outcome of the POST that is
    issued if the line is sent. *)
Definition turn (conversation : list Msg) (line : string) (resp : HttpResult) : Turn :=
  let user_input := trim line in
  if eq_ignore_ascii_case user_input "quit" then Quit
  else if is_empty user_input then Next conversation
  else
    let conversation := conversation ++ [mkMsg "user" user_input] in
    match resp with
    | TransportError => Fatal conversation                 (* send().await? *)
    | Response status body =>
        if negb (is_success status) then
          match body with
          | BodyReadError => Fatal conversation            (* resp.text().await? *)
          | BodyText _ => Next conversation                (* continue *)
          end
        else
          match body with
          | BodyReadError => Fatal conversation            (* resp.text().await? *)
          | BodyText None => Next conversation             (* parse error: continue *)
          | BodyText (Some chat_response) =>
              match resp_choices chat_response with
              | choice :: _ =>
                  Next (conversation ++ [mkMsg "assistant" (cm_content (ch_message choice))])
              | [] => Next conversation
              end
          end
    end.

Inductive Status := Running | Exited | Failed.

(** The [loop] run over a finite sequence of (line, server outcome). *)
Fixpoint run (conversation : list Msg) (inputs : list (string * HttpResult))
  : Status * list Msg :=
  match inputs with
  | [] => (Running, conversation)
  | (line, resp) :: rest =>
      match turn conversation line resp with
      | Quit => (Exited, conversation)
      | Fatal c => (Failed, c)
      | Next c => run c rest
      end
  end.

End Cli.

(* ------------------------------------------------------------------ *)
(** ** The egui front end (gui.rs) *)
Module Gui.

(** [ChatMessageRequest] of gui.rs: role, content and an [Instant]. *)
Record GMsg := mkGMsg {
  gm_role : string;
  gm_content : string;
  gm_timestamp : nat
}.

(** A thread started by [send_request] that has not finished yet: the
    location of the conversation clone moved into it, and the model. *)
Record Dispatch := mkDispatch {
  d_conversation : nat;
  d_model : string
}.

(** The [ChatApp] fields the orchestration reads or writes ([api_key], [url]
    and [headers] are constant after [new] and only forwarded), together with
    the memory the [Vec]s live in, the running threads and the queue of the
    [channel()] shared by [tx] and [rx]. [conversation] is the location of
    the app's [Vec<ChatMessageRequest>] in [heap]; a [clone()] allocates a
    fresh location [next_loc]. *)
Record World := mkWorld {
  conversation : nat;
  input : string;
  is_typing : bool;
  typing_start : option nat;
  current_model : string;
  dark_mode : bool;
  heap : gmap nat (list GMsg);
  next_loc : nat;
  in_flight : list Dispatch;
  channel : list ChatMessage
}.

(** [Vec::push] on the vector stored at [l]. *)
Definition vec_push (h : gmap nat (list GMsg)) (l : nat) (m : GMsg) : gmap nat (list GMsg) :=
  match h !! l with
  | Some v => <[l := v ++ [m]]> h
  | None => h
  end.

Definition welcome_text : string :=
  "Hello! I'm an AI assistant. How can I help you today?".

(** [ChatApp::new] (lines 124-142), at instant [t0]. *)
Definition new (t0 : nat) : World := {|
  conversation := 0;
  input := "";
  is_typing := false;
  typing_start := None;
  current_model := "deepseek/deepseek-chat:free";
  dark_mode := false;
  heap := {[0 := [mkGMsg "assistant" welcome_text t0]]};
  next_loc := 1;
  in_flight := [];
  channel := []
|}.

(** What the user does during one frame: toggle the theme, pick a model,
    edit the text box (its new contents), click Send / press Ctrl+Enter. *)
Record Frame := mkFrame {
  fr_now : nat;
  fr_toggle_dark : bool;
  fr_select_model : option string;
  fr_edit : option string;
  fr_send : bool
}.

(** [if let Ok(msg) = self.rx.try_recv() { ... }] (lines 314-326). *)
Definition receive (w : World) (now : nat) : World :=
  match channel w with
  | msg :: rest => {|
      conversation := conversation w;
      input := input w;
      is_typing := false;
      typing_start := None;
      current_model := current_model w;
      dark_mode := dark_mode w;
      heap := vec_push (heap w) (conversation w)
                (mkGMsg (cm_role msg) (cm_content msg) now);
      next_loc := next_loc w;
      in_flight := in_flight w;
      channel := rest |}
  | [] => w
  end.

(** Top panel: theme button and model selector (lines 329-352). *)
Definition top_panel (w : World) (f : Frame) : World := {|
  conversation := conversation w;
  input := input w;
  is_typing := is_typing w;
  typing_start := typing_start w;
  current_model := default (current_model w) (fr_select_model f);
  dark_mode := if fr_toggle_dark f then negb (dark_mode w) else dark_mode w;
  heap := heap w;
  next_loc := next_loc w;
  in_flight := in_flight w;
  channel := channel w |}.

(** Typing indicator in the scroll area (lines 413-418). *)
Definition indicator (w : World) (now : nat) : World :=
  if is_typing w then
    match typing_start w with
    | None => {|
        conversation := conversation w;
        input := input w;
        is_typing := is_typing w;
        typing_start := Some now;
        current_model := current_model w;
        dark_mode := dark_mode w;
        heap := heap w;
        next_loc := next_loc w;
        in_flight := in_flight w;
        channel := channel w |}
    | Some _ => w
    end
  else w.

(** The multiline [TextEdit] bound to [self.input]. *)
Definition edit (w : World) (f : Frame) : World := {|
  conversation := conversation w;
  input := default (input w) (fr_edit f);
  is_typing := is_typing w;
  typing_start := typing_start w;
  current_model := current_model w;
  dark_mode := dark_mode w;
  heap := heap w;
  next_loc := next_loc w;
  in_flight := in_flight w;
  channel := channel w |}.

(** [should_send] and its branch (lines 485-516): push the user message,
    set [is_typing], [clone()] the conversation, spawn the thread with it,
    clear the input. *)
Definition should_send (w : World) (f : Frame) : bool :=
  fr_send f && negb (is_empty (trim (input w))) && negb (is_typing w).

Definition send_button (w : World) (f : Frame) : World :=
  if should_send w f then
    let text := trim (input w) in
    let h := vec_push (heap w) (conversation w) (mkGMsg "user" text (fr_now f)) in
    let conv_clone := default [] (h !! conversation w) in
    let l := next_loc w in {|
      conversation := conversation w;
      input := "";
      is_typing := true;
      typing_start := typing_start w;
      current_model := current_model w;
      dark_mode := dark_mode w;
      heap := <[l := conv_clone]> h;
      next_loc := S l;
      in_flight := in_flight w ++ [mkDispatch l (current_model w)];
      channel := channel w |}
  else w.

(** [App::update]: one frame. *)
Definition update (w : World) (f : Frame) : World :=
  send_button (edit (indicator (top_panel (receive w (fr_now f)) f) (fr_now f)) f) f.

(** The [i]-th running thread finishes with the HTTP outcome [r]: its
    conversation clone is dropped and [tx.send] is called iff [result] is
    [Some] (lines 161-225). *)
Definition complete (w : World) (i : nat) (r : HttpResult) : World :=
  match in_flight w !! i with
  | Some d => {|
      conversation := conversation w;
      input := input w;
      is_typing := is_typing w;
      typing_start := typing_start w;
      current_model := current_model w;
      dark_mode := dark_mode w;
      heap := delete (d_conversation d) (heap w);
      next_loc := next_loc w;
      in_flight := delete i (in_flight w);
      channel := match send_request_result r with
                 | Some assistant_msg => channel w ++ [assistant_msg]
                 | None => channel w
                 end |}
  | None => w
  end.

Inductive Event :=
| EFrame (f : Frame)
| EComplete (i : nat) (r : HttpResult).

Definition step (w : World) (e : Event) : World :=
  match e with
  | EFrame f => update w f
  | EComplete i r => complete w i r
  end.

Definition run (w : World) (es : list Event) : World := fold_left step es w.

(** The Transcript Store: the vector the app's [conversation] designates. *)
Definition transcript (w : World) : list GMsg := default [] (heap w !! conversation w).

(** States reachable from [ChatApp::new]. *)
Inductive reachable : World -> Prop :=
| reach_new t0 : reachable (new t0)
| reach_step w e : reachable w -> reachable (step w e).

End Gui.

(* ------------------------------------------------------------------ *)
(** ** What the egui front end draws from a message (gui.rs lines 227-303)
    and the typing indicator text (lines 430-441) *)
Module View.

(** The part of [RichText] the code sets: text, [size], [strong]. *)
Record RichText := mkRichText {
  rt_text : string;
  rt_size : option nat;
  rt_strong : bool
}.

Definition Color : Type := nat * nat * nat.

(** What [format_message_text] adds to the [Ui], in order: [add_space],
    [label], and a code [Frame] with its fill. Inside the frame the code adds
    a space of 8, a monospace label with the trimmed block and a space of 8;
    the rounding and stroke are constants. *)
Inductive Widget :=
| WSpace (n : nat)
| WLabel (t : RichText)
| WCodeFrame (fill : Color) (code : string).

(** [str::lines]: split at "\n", drop a "\r" just before it, no final empty
    line. [cur] is the current line, reversed. *)
Fixpoint lines_from (s : string) (cur : string) : list string :=
  match s with
  | EmptyString => if is_empty cur then [] else [rev_str cur EmptyString]
  | String c rest =>
      if Ascii.eqb c (ascii_of_nat 10) then
        let l := match cur with
                 | String d cur' => if Ascii.eqb d (ascii_of_nat 13) then cur' else cur
                 | EmptyString => cur
                 end in
        rev_str l EmptyString :: lines_from rest EmptyString
      else lines_from rest (String c cur)
  end.

Definition lines (s : string) : list string := lines_from s EmptyString.

Definition newline : string := String (ascii_of_nat 10) EmptyString.

(** [&line[n..]]. *)
Fixpoint str_drop (n : nat) (s : string) : string :=
  match n, s with
  | 0, _ => s
  | S n', String _ s' => str_drop n' s'
  | S _, EmptyString => EmptyString
  end.

Definition is_star (c : ascii) : bool := Ascii.eqb c "*"%char.

(** [contains("**")]. *)
Fixpoint contains_stars (s : string) : bool :=
  match s with
  | String c ((String d _) as s') => (is_star c && is_star d) || contains_stars s'
  | _ => false
  end.

(** [replace("**", "")]: left to right, non-overlapping. *)
Fixpoint replace_stars (s : string) : string :=
  match s with
  | String c ((String d r) as s') =>
      if is_star c && is_star d then replace_stars r else String c (replace_stars s')
  | _ => s
  end.

(** The [RichText] of a line outside a code block. *)
Definition label_of_line (line : string) : RichText :=
  if String.prefix "# " line then mkRichText (str_drop 2 line) (Some 20) true
  else if String.prefix "## " line then mkRichText (str_drop 3 line) (Some 18) true
  else if contains_stars line then mkRichText (replace_stars line) None true
  else mkRichText line None false.

Definition is_fence (line : string) : bool := String.prefix "```" (trim line).

Definition code_fill (dark_mode : bool) : Color :=
  if dark_mode then (40, 44, 52) else (245, 245, 245).

Definition code_frame (dark_mode : bool) (code_block : string) : list Widget :=
  [WSpace 4; WCodeFrame (code_fill dark_mode) (trim code_block); WSpace 4].

(** The [for line in text.lines()] loop and the trailing block, with the
    state [in_code_block] and [code_block]. *)
Fixpoint render_lines (dark_mode : bool) (in_code_block : bool) (code_block : string)
    (ls : list string) : list Widget :=
  match ls with
  | [] => if in_code_block && negb (is_empty code_block)
          then code_frame dark_mode code_block else []
  | line :: rest =>
      if is_fence line then
        if in_code_block then
          code_frame dark_mode code_block ++ render_lines dark_mode false EmptyString rest
        else render_lines dark_mode true code_block rest
      else if in_code_block then
        render_lines dark_mode true (code_block ++ line ++ newline) rest
      else WLabel (label_of_line line) :: render_lines dark_mode false code_block rest
  end.

Definition format_message_text (dark_mode : bool) (text : string) : list Widget :=
  render_lines dark_mode false EmptyString (lines text).

Inductive Align := AlignLeft | AlignRight.

Definition white : Color := (255, 255, 255).
Definition black : Color := (0, 0, 0).

(** Bubble fill, text colour and side of a message (gui.rs lines 368-388). *)
Definition bubble_style (dark_mode : bool) (role : string) : Color * Color * Align :=
  if String.eqb role "user" then
    if dark_mode then ((44, 51, 73), white, AlignRight) else ((217, 234, 251), black, AlignRight)
  else
    if dark_mode then ((55, 59, 70), white, AlignLeft) else ((245, 245, 245), black, AlignLeft).


(** The indicator label once [typing_start] is known, instants in
    milliseconds; [Instant::elapsed] saturates at zero. *)
Definition thinking_label (typing_start : option nat) (now : nat) : string :=
  match typing_start with
  | Some start_time =>
      let elapsed := (now - start_time) / 500 in
      "Thinking" ++ match elapsed mod 4 with
                    | 0 => ""
                    | 1 => "."
                    | 2 => ".."
                    | _ => "..."
                    end
  | None => "Thinking..."
  end.

End View.

(* ------------------------------------------------------------------ *)
(** ** Start-up: the API key, the URL and the default headers
    (main.rs lines 50-75, gui.rs lines 100-119) *)
Module Startup.

(** The process environment after [dotenv::dotenv()]. *)
Abbreviation Env := (gmap string string).

(** [HeaderValue::from_str] accepts a byte iff it is at least 32 and not
    DEL, or it is a tab. *)
Definition header_byte_ok (c : ascii) : bool :=
  let b := nat_of_ascii c in ((32 <=? b) && negb (b =? 127)) || (b =? 9).

Fixpoint header_value_ok (s : string) : bool :=
  match s with
  | EmptyString => true
  | String c rest => header_byte_ok c && header_value_ok rest
  end.

Definition header_from_str (s : string) : option string :=
  if header_value_ok s then Some s else None.

(** A [HeaderMap]: [insert] replaces; names are stored lower-case. *)
Abbreviation HeaderMap := (gmap string string).

(** The inserts into [headers]; [None] when a [from_str] fails. *)
Definition build_headers (api_key : string) (http_referer x_title : option string)
    : option HeaderMap :=
  let headers : HeaderMap := <["content-type" := "application/json"]> ∅ in
  auth ← header_from_str ("Bearer " ++ api_key);
  let headers := <["authorization" := auth]> headers in
  headers ← match http_referer with
            | Some referer => v ← header_from_str referer; Some (<["http-referer" := v]> headers)
            | None => Some headers
            end;
  match x_title with
  | Some title => v ← header_from_str title; Some (<["x-title" := v]> headers)
  | None => Some headers
  end.

Record Config := mkConfig {
  cfg_api_key : string;
  cfg_url : string;
  cfg_headers : HeaderMap
}.

(** The program panics ([expect], [unwrap]), returns an error from [main]
    ([?]), or goes on with its configuration. *)
Inductive Outcome :=
| Panicked
| Errored
| Started (cfg : Config).

Definition default_url : string := "https://openrouter.ai/api/v1/chat/completions".

(** main.rs: [expect] on the key, [?] on each [from_str]. *)
Definition cli_startup (env : Env) : Outcome :=
  match env !! "OPENROUTER_API_KEY" with
  | None => Panicked
  | Some api_key =>
      let url := default default_url (env !! "OPENROUTER_API_URL") in
      match build_headers api_key (env !! "HTTP_REFERER") (env !! "X_TITLE") with
      | Some headers => Started (mkConfig api_key url headers)
      | None => Errored
      end
  end.

(** [ChatApp::new]: [expect] on the key, [unwrap] on each [from_str]. *)
Definition gui_startup (env : Env) : Outcome :=
  match env !! "OPENROUTER_API_KEY" with
  | None => Panicked
  | Some api_key =>
      let url := default default_url (env !! "OPENROUTER_API_URL") in
      match build_headers api_key (env !! "HTTP_REFERER") (env !! "X_TITLE") with
      | Some headers => Started (mkConfig api_key url headers)
      | None => Panicked
      end
  end.

End Startup.

(* ------------------------------------------------------------------ *)
(** ** Predicates on the egui world and the scenarios of the claims *)
Module Props.
Import Gui.

(** The pending state: idle with nothing outstanding, or waiting with at
    most one thread or channel message outstanding. *)
Definition pending_ok (w : World) : Prop :=
  (is_typing w = false /\ in_flight w = [] /\ channel w = [] /\ typing_start w = None)
  \/ (is_typing w = true /\ length (in_flight w) + length (channel w) <= 1).

Definition inv (w : World) : Prop :=
  (exists t0 rest,
      heap w !! conversation w = Some (mkGMsg "assistant" welcome_text t0 :: rest))
  /\ conversation w < next_loc w
  /\ (forall d, d ∈ in_flight w ->
        d_conversation d <> conversation w /\ d_conversation d < next_loc w)
  /\ Forall (fun m => cm_role m = "assistant") (channel w)
  /\ pending_ok w.

(** Waiting for a reply that will never come: no thread, nothing queued. *)
Definition stuck (w : World) : Prop :=
  is_typing w = true /\ in_flight w = [] /\ channel w = [].

(** Locations of the conversation clones held by running threads. *)
Definition snapshots (w : World) : list nat := d_conversation <$> in_flight w.

(** Appending messages to the Transcript Store, i.e. [Vec::push] on the
    app's conversation, in the heap of [w]. *)
Definition append_all (w : World) (ms : list GMsg) : gmap nat (list GMsg) :=
  fold_left (fun h m => vec_push h (conversation w) m) ms (heap w).

(** Nothing pending: not waiting, no thread running, nothing queued. *)
Definition idle (w : World) : Prop :=
  is_typing w = false /\ in_flight w = [] /\ channel w = [].

(** One submission processed on its own: a frame that types [text] and
    clicks Send, the completion of the (only) running thread with [r], and a
    frame that clicks nothing, in which the reply is taken off the channel. *)
Definition round_events (rd : Frame * HttpResult * Frame) : list Event :=
  let '(fs, r, fd) := rd in [EFrame fs; EComplete 0 r; EFrame fd].

(** The event is a frame whose Send is acted on: the condition of
    [send_button], after the earlier phases of the frame. *)
Definition submitted (w : World) (e : Event) : bool :=
  match e with
  | EFrame f => should_send (edit (indicator (top_panel (receive w (fr_now f)) f) (fr_now f)) f) f
  | EComplete _ _ => false
  end.

(** The number of user submissions along a run from [w]. *)
Fixpoint sends (w : World) (es : list Event) : nat :=
  match es with
  | [] => 0
  | e :: es' => (if submitted w e then 1 else 0) + sends (step w e) es'
  end.

(** A terminal line that is sent (not "quit", not blank) is answered: the
    dispatch yields a message. *)
Definition answered (t : string * HttpResult) : Prop :=
  let '(line, r) := t in
  eq_ignore_ascii_case (trim line) "quit" = false -> is_empty (trim line) = false ->
  send_request_result r <> None.

(** The number of terminal lines sent before "quit", if any. *)
Fixpoint cli_sends (inputs : list (string * HttpResult)) : nat :=
  match inputs with
  | [] => 0
  | (line, _) :: rest =>
      if eq_ignore_ascii_case (trim line) "quit" then 0
      else if is_empty (trim line) then cli_sends rest else S (cli_sends rest)
  end.

End Props.

(* ------------------------------------------------------------------ *)
(** ** Shapes of texts, transcripts and conversations *)
Module Shapes.
Import Gui.

(** The first char, if there is one, is not whitespace. *)
Definition front_ok (s : string) : Prop :=
  match next_char s with Some (c, _) => is_whitespace c = false | None => True end.

(** The last char, if there is one, is not whitespace. *)
Definition back_ok (s : string) : Prop :=
  match next_char_back s with Some (_, c) => is_whitespace c = false | None => True end.

(** Non-empty, and [trim] leaves it as it is. *)
Definition trimmed_text (s : string) : Prop := is_empty s = false /\ trim s = s.

(** The roles of the welcome message followed by [n] user/assistant pairs,
    and a last user message while waiting. *)
Definition role_shape (n : nat) (waiting : bool) : list string :=
  "assistant" :: concat (repeat ["user"; "assistant"] n) ++ (if waiting then ["user"] else []).

(** The code block text made of [body]: each line followed by "\n". *)
Fixpoint block_text (body : list string) : string :=
  match body with
  | [] => EmptyString
  | l :: b => String.append l (String.append View.newline (block_text b))
  end.

(** A terminal conversation: user messages, each possibly followed by the
    assistant's reply. *)
Inductive cli_shape : list Cli.Msg -> Prop :=
| cli_shape_nil : cli_shape []
| cli_shape_user l u : cli_shape l -> cli_shape (l ++ [Cli.mkMsg "user" u])
| cli_shape_reply l u a :
    cli_shape l -> cli_shape (l ++ [Cli.mkMsg "user" u; Cli.mkMsg "assistant" a]).

End Shapes.

(* ------------------------------------------------------------------ *)
(** ** Shared helpers for the terminal loop *)
Module CliLemmas.

Lemma turn_reply conv line r m :
  eq_ignore_ascii_case (trim line) "quit" = false ->
  is_empty (trim line) = false ->
  send_request_result r = Some m ->
  Cli.turn conv line r =
    Cli.Next (conv ++ [Cli.mkMsg "user" (trim line); Cli.mkMsg "assistant" (cm_content m)]).
Proof.
  intros Hq He Hr. unfold Cli.turn. rewrite Hq, He.
  destruct r as [|st [|[resp|]]]; simpl in Hr; [discriminate| | |];
    destruct (is_success st); simpl in *; try discriminate.
  destruct (resp_choices resp) as [|c cs]; [discriminate|].
  injection Hr as <-. simpl. by rewrite <- app_assoc.
Qed.

End CliLemmas.

(* ------------------------------------------------------------------ *)
(** ** Invariant of the egui front end *)
Module GuiInv.
Import Gui Props.

Lemma vec_push_same (h : gmap nat (list GMsg)) l m v :
  h !! l = Some v -> vec_push h l m !! l = Some (v ++ [m]).
Proof. intros H. unfold vec_push. rewrite H. apply lookup_insert_eq. Qed.

Lemma vec_push_other (h : gmap nat (list GMsg)) l l' m :
  l <> l' -> vec_push h l m !! l' = h !! l'.
Proof.
  intros Hne. unfold vec_push. destruct (h !! l); [|done].
  by apply lookup_insert_ne.
Qed.

Lemma inv_new t0 : inv (new t0).
Proof.
  split; [|split; [|split; [|split]]]; simpl.
  - exists t0, []. apply lookup_singleton_eq.
  - lia.
  - set_solver.
  - constructor.
  - left. done.
Qed.

Lemma send_request_result_role r m :
  send_request_result r = Some m -> cm_role m = "assistant".
Proof.
  destruct r as [|st [|[resp|]]]; simpl; [discriminate| | |];
    destruct (negb (is_success st)); try discriminate.
  destruct (resp_choices resp); [discriminate|]. intros [= <-]. done.
Qed.

(** A change of fields the invariant does not mention keeps it. *)
Lemma inv_same w w' :
  conversation w' = conversation w -> heap w' = heap w -> next_loc w' = next_loc w ->
  in_flight w' = in_flight w -> channel w' = channel w ->
  is_typing w' = is_typing w -> typing_start w' = typing_start w ->
  inv w -> inv w'.
Proof.
  intros E1 E2 E3 E4 E5 E6 E7. unfold inv, pending_ok.
  rewrite E1, E2, E3, E4, E5, E6, E7. done.
Qed.

Lemma inv_receive w now : inv w -> inv (receive w now).
Proof.
  intros Hinv. pose proof Hinv as (Hc & Hlt & Hd & Hch & Hp). unfold receive.
  destruct (channel w) as [|m rest] eqn:E; [exact Hinv|].
  destruct Hp as [(_ & _ & Hc0 & _) | (Ht & Hlen)]; [congruence|].
  rewrite E in Hlen. simpl in Hlen.
  assert (in_flight w = []) as Hi by (destruct (in_flight w); simpl in *; [done|lia]).
  assert (rest = []) as -> by (destruct rest; simpl in *; [done|lia]).
  destruct Hc as (t0 & r & Hr).
  split; [|split; [|split; [|split]]]; simpl.
  - exists t0, (r ++ [mkGMsg (cm_role m) (cm_content m) now]).
    by rewrite (vec_push_same _ _ _ _ Hr).
  - exact Hlt.
  - rewrite Hi. set_solver.
  - constructor.
  - left. simpl. by rewrite Hi.
Qed.

Lemma inv_top_panel w f : inv w -> inv (top_panel w f).
Proof. apply inv_same; done. Qed.

Lemma inv_indicator w now : inv w -> inv (indicator w now).
Proof.
  intros Hinv. pose proof Hinv as (Hc & Hlt & Hd & Hch & Hp). unfold indicator.
  destruct (is_typing w) eqn:Ht; [|exact Hinv].
  destruct (typing_start w); [exact Hinv|].
  split; [|split; [|split; [|split]]]; simpl; auto.
  destruct Hp as [(Hf & _) | (_ & Hlen)]; [congruence|]. right. auto.
Qed.

Lemma inv_edit w f : inv w -> inv (edit w f).
Proof. apply inv_same; done. Qed.

Lemma inv_send_button w f : inv w -> inv (send_button w f).
Proof.
  intros Hinv. pose proof Hinv as (Hc & Hlt & Hd & Hch & Hp). unfold send_button.
  destruct (should_send w f) eqn:Hs; [|exact Hinv].
  unfold should_send in Hs. apply andb_prop in Hs as [_ Hs].
  apply negb_true_iff in Hs.
  destruct Hp as [(_ & Hi & Hch0 & _) | (Ht & _)]; [|congruence].
  destruct Hc as (t0 & r & Hr).
  split; [|split; [|split; [|split]]]; simpl.
  - exists t0, (r ++ [mkGMsg "user" (trim (input w)) (fr_now f)]).
    rewrite lookup_insert_ne by lia. by rewrite (vec_push_same _ _ _ _ Hr).
  - lia.
  - intros d. rewrite Hi. simpl. rewrite list_elem_of_singleton. intros ->. simpl. lia.
  - by rewrite Hch0.
  - right. rewrite Hi, Hch0. simpl. split; [done|lia].
Qed.

Lemma inv_update w f : inv w -> inv (update w f).
Proof.
  intros H. unfold update.
  apply inv_send_button, inv_edit, inv_indicator, inv_top_panel, inv_receive, H.
Qed.

Lemma inv_complete w i r : inv w -> inv (complete w i r).
Proof.
  intros Hinv. pose proof Hinv as (Hc & Hlt & Hd & Hch & Hp). unfold complete.
  destruct (in_flight w !! i) as [d|] eqn:Ei; [|exact Hinv].
  assert (d ∈ in_flight w) as Hdin by (eapply list_elem_of_lookup_2; eauto).
  destruct (Hd d Hdin) as [Hne Hdl].
  destruct Hc as (t0 & rest & Hr).
  assert (length (delete i (in_flight w)) = length (in_flight w) - 1) as Hlen
    by (apply length_delete; eauto).
  assert (length (in_flight w) >= 1)
    by (apply lookup_lt_Some in Ei; lia).
  split; [|split; [|split; [|split]]]; simpl.
  - exists t0, rest. rewrite lookup_delete_ne by congruence. exact Hr.
  - exact Hlt.
  - intros d' Hd'. apply Hd. eapply list_elem_of_delete_inv; eauto.
  - destruct (send_request_result r) as [m|] eqn:Er; [|exact Hch].
    apply Forall_app; split; [exact Hch|]. constructor; [|constructor].
    by eapply send_request_result_role.
  - destruct Hp as [(_ & Hi & _) | (Ht & Hl)]; [rewrite Hi in Ei; done|].
    right. simpl. split; [exact Ht|]. rewrite Hlen.
    destruct (send_request_result r); [rewrite length_app|]; simpl; lia.
Qed.

Lemma inv_step w e : inv w -> inv (step w e).
Proof. destruct e; simpl; [apply inv_update | apply inv_complete]. Qed.

Lemma reachable_inv w : reachable w -> inv w.
Proof. induction 1; [apply inv_new | by apply inv_step]. Qed.

Lemma reachable_run w es : reachable w -> reachable (run w es).
Proof.
  revert w. induction es as [|e es IH]; intros w Hw; simpl; [done|].
  apply IH. by constructor.
Qed.

End GuiInv.

(* ------------------------------------------------------------------ *)
(** ** How each phase of a frame and a thread completion act on the
       transcript and on the pending state *)
Module GuiLemmas.
Import Gui Props GuiInv.

Lemma inv_conv w : inv w -> exists v, heap w !! conversation w = Some v.
Proof. intros ((t0 & r & H) & _). eauto. Qed.

Lemma transcript_receive w now : inv w ->
  transcript (receive w now) = transcript w ++
    match channel w with
    | m :: _ => [mkGMsg (cm_role m) (cm_content m) now]
    | [] => []
    end.
Proof.
  intros Hinv. destruct (inv_conv w Hinv) as [v Hv].
  unfold receive, transcript. destruct (channel w); simpl.
  - by rewrite app_nil_r.
  - by rewrite (vec_push_same _ _ _ _ Hv), Hv.
Qed.

Lemma transcript_top_panel w f : transcript (top_panel w f) = transcript w.
Proof. done. Qed.

Lemma transcript_indicator w now : transcript (indicator w now) = transcript w.
Proof. unfold indicator. by destruct (is_typing w), (typing_start w). Qed.

Lemma transcript_edit w f : transcript (edit w f) = transcript w.
Proof. done. Qed.

Lemma transcript_send_button w f : inv w ->
  transcript (send_button w f) = transcript w ++
    (if should_send w f then [mkGMsg "user" (trim (input w)) (fr_now f)] else []).
Proof.
  intros Hinv. pose proof Hinv as (_ & Hlt & _). destruct (inv_conv w Hinv) as [v Hv].
  unfold send_button, transcript. destruct (should_send w f); simpl.
  - rewrite lookup_insert_ne by lia. by rewrite (vec_push_same _ _ _ _ Hv), Hv.
  - by rewrite app_nil_r.
Qed.

Lemma transcript_complete w i r : inv w -> transcript (complete w i r) = transcript w.
Proof.
  intros Hinv. pose proof Hinv as (_ & _ & Hd & _). unfold complete, transcript.
  destruct (in_flight w !! i) as [d|] eqn:Ei; [|done]. simpl.
  rewrite lookup_delete_ne; [done|].
  destruct (Hd d) as [Hne _]; [eapply list_elem_of_lookup_2; eauto|]. congruence.
Qed.

Lemma inv_pre_send w f :
  inv w -> inv (edit (indicator (top_panel (receive w (fr_now f)) f) (fr_now f)) f).
Proof. intros H. apply inv_edit, inv_indicator, inv_top_panel, inv_receive, H. Qed.

Lemma transcript_prefix_step w e : inv w -> transcript w `prefix_of` transcript (step w e).
Proof.
  intros Hinv. destruct e as [f|i r]; simpl.
  - unfold update. rewrite (transcript_send_button _ _ (inv_pre_send w f Hinv)).
    rewrite transcript_edit, transcript_indicator, transcript_top_panel.
    rewrite (transcript_receive _ _ Hinv).
    apply prefix_app_r, prefix_app_r. done.
  - rewrite (transcript_complete _ _ _ Hinv). done.
Qed.

(** A frame that starts while waiting with nothing on the channel changes
    neither the transcript nor the running threads. *)
Lemma update_waiting w f :
  is_typing w = true -> channel w = [] ->
  heap (update w f) = heap w /\ conversation (update w f) = conversation w /\
  in_flight (update w f) = in_flight w /\ channel (update w f) = [] /\
  is_typing (update w f) = true /\ next_loc (update w f) = next_loc w.
Proof.
  intros Ht Hc. unfold update, receive. rewrite Hc.
  unfold indicator. simpl. rewrite Ht.
  destruct (typing_start w); unfold send_button, should_send; simpl;
    rewrite ?Ht, ?andb_false_r; simpl; auto; repeat split; auto.
Qed.

Lemma stuck_step w e : stuck w -> stuck (step w e) /\ heap (step w e) = heap w
  /\ conversation (step w e) = conversation w.
Proof.
  intros (Ht & Hi & Hc). destruct e as [f|i r]; simpl.
  - destruct (update_waiting w f Ht Hc) as (E1 & E2 & E3 & E4 & E5 & _).
    rewrite E1, E2. repeat split; congruence.
  - unfold complete. rewrite Hi. simpl. repeat split; auto.
Qed.

Lemma stuck_run w es : stuck w -> stuck (run w es).
Proof.
  revert w. induction es as [|e es IH]; intros w Hs; simpl; [done|].
  apply IH. apply stuck_step, Hs.
Qed.

(** The state a frame reaches just before the Send check. *)
Lemma pre_send_fields w f :
  let w2 := edit (indicator (top_panel (receive w (fr_now f)) f) (fr_now f)) f in
  conversation w2 = conversation w /\ next_loc w2 = next_loc w /\
  in_flight w2 = in_flight w /\ heap w2 = heap (receive w (fr_now f)) /\
  channel w2 = channel (receive w (fr_now f)) /\
  is_typing w2 = is_typing (receive w (fr_now f)) /\
  input w2 = default (input w) (fr_edit f).
Proof.
  unfold receive, indicator, edit, top_panel.
  destruct (channel w); simpl;
    [destruct (is_typing w), (typing_start w) | ]; simpl; auto 10.
Qed.

Lemma send_button_cases w f :
  (should_send w f = false /\ send_button w f = w) \/
  (should_send w f = true /\ is_typing w = false /\
   in_flight (send_button w f) = in_flight w ++ [mkDispatch (next_loc w) (current_model w)] /\
   heap (send_button w f) =
     <[next_loc w := default []
         (vec_push (heap w) (conversation w) (mkGMsg "user" (trim (input w)) (fr_now f))
            !! conversation w)]>
       (vec_push (heap w) (conversation w) (mkGMsg "user" (trim (input w)) (fr_now f))) /\
   next_loc (send_button w f) = S (next_loc w) /\
   conversation (send_button w f) = conversation w /\
   channel (send_button w f) = channel w /\
   is_typing (send_button w f) = true /\
   typing_start (send_button w f) = typing_start w).
Proof.
  unfold send_button. destruct (should_send w f) eqn:Hs; [right|left; done].
  split; [done|]. split; [|repeat split; done].
  unfold should_send in Hs. apply andb_prop in Hs as [_ Hs]. by apply negb_true_iff in Hs.
Qed.

Lemma transcript_update w f : inv w ->
  exists extra, transcript (update w f) = transcript (receive w (fr_now f)) ++ extra.
Proof.
  intros Hinv. unfold update.
  rewrite (transcript_send_button _ _ (inv_pre_send w f Hinv)).
  rewrite transcript_edit, transcript_indicator, transcript_top_panel. eauto.
Qed.

(** A thread finishing: nothing was queued before, its reply (if any) is
    the only message queued after. *)
Lemma complete_running w i d r : inv w -> in_flight w !! i = Some d ->
  channel w = [] /\ in_flight (complete w i r) = [] /\
  channel (complete w i r) = match send_request_result r with Some m => [m] | None => [] end /\
  transcript (complete w i r) = transcript w /\ is_typing (complete w i r) = true.
Proof.
  intros Hinv Ei. pose proof Hinv as (_ & _ & _ & _ & Hp).
  assert (length (in_flight w) >= 1) by (apply lookup_lt_Some in Ei; lia).
  destruct Hp as [(_ & Hi & _) | (Ht & Hl)]; [rewrite Hi in Ei; done|].
  assert (channel w = []) as Hc by (destruct (channel w); simpl in *; [done|lia]).
  assert (length (delete i (in_flight w)) = 0) as Hd.
  { rewrite length_delete by eauto. lia. }
  split; [done|]. rewrite (transcript_complete _ _ _ Hinv).
  unfold complete. rewrite Ei. simpl. rewrite Hc.
  split; [by apply length_zero_iff_nil|]. split; [by destruct (send_request_result r)|]. auto.
Qed.

Lemma snapshot_loc w l : inv w -> l ∈ snapshots w -> l <> conversation w /\ l < next_loc w.
Proof.
  intros (_ & _ & Hd & _) Hl. unfold snapshots in Hl.
  apply list_elem_of_fmap in Hl as (d & -> & Hd'). by apply Hd.
Qed.

Lemma heap_receive_other w now l : l <> conversation w ->
  heap (receive w now) !! l = heap w !! l.
Proof.
  intros Hne. unfold receive. destruct (channel w); [done|]. simpl.
  apply vec_push_other. congruence.
Qed.

Lemma conversation_step w e : conversation (step w e) = conversation w.
Proof.
  destruct e as [f|i r]; simpl.
  - unfold update. destruct (pre_send_fields w f) as (Hc & _).
    destruct (send_button_cases (edit (indicator (top_panel (receive w (fr_now f)) f) (fr_now f)) f) f)
      as [(_ & ->) | (_ & _ & _ & _ & _ & -> & _)]; exact Hc.
  - unfold complete. by destruct (in_flight w !! i).
Qed.

Lemma next_loc_step w e : next_loc w <= next_loc (step w e).
Proof.
  destruct e as [f|i r]; simpl.
  - unfold update. destruct (pre_send_fields w f) as (_ & Hn & _).
    destruct (send_button_cases (edit (indicator (top_panel (receive w (fr_now f)) f) (fr_now f)) f) f)
      as [(_ & ->) | (_ & _ & _ & _ & -> & _)]; rewrite Hn; lia.
  - unfold complete. by destruct (in_flight w !! i).
Qed.

(** A clone held by a running thread is never written by a step. *)
Lemma heap_snapshot_step w e l : inv w -> l ∈ snapshots w -> l ∈ snapshots (step w e) ->
  heap (step w e) !! l = heap w !! l.
Proof.
  intros Hinv Hl Hl'. destruct (snapshot_loc w l Hinv Hl) as [Hne Hlt].
  destruct e as [f|i r]; simpl in *.
  - unfold update. destruct (pre_send_fields w f) as (Hc & Hn & _ & Hh & _).
    set (w2 := edit (indicator (top_panel (receive w (fr_now f)) f) (fr_now f)) f) in *.
    destruct (send_button_cases w2 f) as [(_ & ->) | (_ & _ & _ & -> & _)].
    + rewrite Hh. by apply heap_receive_other.
    + rewrite lookup_insert_ne by lia. rewrite vec_push_other by congruence.
      rewrite Hh. by apply heap_receive_other.
  - destruct (in_flight w !! i) as [d|] eqn:Ei; [|unfold complete; by rewrite Ei].
    destruct (complete_running w i d r Hinv Ei) as (_ & Hi & _).
    unfold snapshots in Hl'. rewrite Hi in Hl'. set_solver.
Qed.

Lemma snapshot_gone_step w e l : inv w -> l ∉ snapshots w -> l < next_loc w ->
  l ∉ snapshots (step w e).
Proof.
  intros Hinv Hl Hlt. destruct e as [f|i r]; simpl.
  - unfold update. destruct (pre_send_fields w f) as (_ & Hn & Hi & _).
    set (w2 := edit (indicator (top_panel (receive w (fr_now f)) f) (fr_now f)) f) in *.
    unfold snapshots in *.
    destruct (send_button_cases w2 f) as [(_ & ->) | (_ & _ & -> & _)].
    + by rewrite Hi.
    + rewrite fmap_app, Hi, elem_of_app. cbn [fmap list_fmap]. rewrite list_elem_of_singleton.
      intros [H|H]; [done|cbn [d_conversation] in H; lia].
  - unfold complete, snapshots in *. destruct (in_flight w !! i) as [d0|]; [|done]. simpl.
    intros H. apply Hl. apply list_elem_of_fmap in H as (d & -> & Hd).
    apply list_elem_of_fmap_2. eapply list_elem_of_delete_inv; exact Hd.
Qed.

Lemma snapshot_gone_run w es l : inv w -> l ∉ snapshots w -> l < next_loc w ->
  l ∉ snapshots (run w es).
Proof.
  revert w. induction es as [|e es IH]; intros w Hinv Hl Hlt; simpl; [done|].
  apply IH; [by apply inv_step | by apply snapshot_gone_step |].
  pose proof (next_loc_step w e). lia.
Qed.

Lemma heap_snapshot_run w es l : inv w -> l ∈ snapshots w -> l ∈ snapshots (run w es) ->
  heap (run w es) !! l = heap w !! l.
Proof.
  revert w. induction es as [|e es IH]; intros w Hinv Hl Hl'; simpl in *; [done|].
  destruct (decide (l ∈ snapshots (step w e))) as [Hs|Hs].
  - rewrite (IH _ (inv_step w e Hinv) Hs Hl'). by apply heap_snapshot_step.
  - exfalso. refine (snapshot_gone_run (step w e) es l (inv_step w e Hinv) Hs _ Hl').
    destruct (snapshot_loc w l Hinv Hl) as [_ Hlt].
    pose proof (next_loc_step w e). lia.
Qed.

Lemma conversation_run w es : conversation (run w es) = conversation w.
Proof.
  revert w. induction es as [|e es IH]; intros w; simpl; [done|].
  by rewrite IH, conversation_step.
Qed.

(** The terminal loop over lines that are all answered: it never fails,
    and each line sent adds the user message and the reply. *)
Lemma cli_run_answered conv inputs : Forall answered inputs ->
  fst (Cli.run conv inputs) <> Cli.Failed /\
  map Cli.role (snd (Cli.run conv inputs)) =
    map Cli.role conv ++ concat (repeat ["user"; "assistant"] (cli_sends inputs)).
Proof.
  revert conv. induction inputs as [|[line r] inputs IH]; intros conv Hall; simpl.
  - by rewrite app_nil_r.
  - inversion Hall as [|? ? Hans Hrest]; subst. simpl in Hans.
    destruct (eq_ignore_ascii_case (trim line) "quit") eqn:Hq.
    + assert (Hturn : Cli.turn conv line r = Cli.Quit) by (unfold Cli.turn; by rewrite Hq).
      rewrite Hturn. simpl. by rewrite app_nil_r.
    + destruct (is_empty (trim line)) eqn:He.
      * assert (Hturn : Cli.turn conv line r = Cli.Next conv) by (unfold Cli.turn; by rewrite Hq, He).
        rewrite Hturn. by apply IH.
      * destruct (send_request_result r) as [m|] eqn:Em; [|by destruct (Hans eq_refl eq_refl)].
        rewrite (CliLemmas.turn_reply conv line r m Hq He Em).
        destruct (IH (conv ++ [Cli.mkMsg "user" (trim line); Cli.mkMsg "assistant" (cm_content m)]) Hrest)
          as [Hst Hroles]. split; [exact Hst|].
        rewrite Hroles, map_app. simpl. by rewrite <- app_assoc.
Qed.

End GuiLemmas.

(* ------------------------------------------------------------------ *)
(** ** [trim]: what it removes *)
Module TrimLemmas.
Import Shapes.
Local Open Scope string_scope.

Lemma str_app_cons x (a b : string) : String x a ++ b = String x (a ++ b).
Proof. reflexivity. Qed.

Lemma str_app_nil_l (b : string) : "" ++ b = b.
Proof. reflexivity. Qed.

Local Ltac ssimpl := simpl; rewrite ?str_app_cons, ?str_app_nil_l.
Local Ltac ssimpl_all := simpl in *; rewrite ?str_app_cons, ?str_app_nil_l in *.

Lemma str_app_assoc (a b c : string) : (a ++ b) ++ c = a ++ (b ++ c).
Proof. induction a as [|x a IH]; ssimpl; [done|by rewrite IH]. Qed.

Lemma str_app_nil_r (a : string) : a ++ "" = a.
Proof. induction a as [|x a IH]; ssimpl; [done|by rewrite IH]. Qed.

Lemma str_length_app (a b : string) : String.length (a ++ b) = String.length a + String.length b.
Proof. induction a as [|x a IH]; ssimpl; [done|by rewrite IH]. Qed.

Lemma rev_str_acc s acc : rev_str s acc = rev_str s "" ++ acc.
Proof.
  revert acc. induction s as [|c s IH]; intros acc; ssimpl; [done|].
  rewrite (IH (String c acc)), (IH (String c "")), str_app_assoc. done.
Qed.

Lemma rev_str_app a b : rev_str (a ++ b) "" = rev_str b "" ++ rev_str a "".
Proof.
  induction a as [|c a IH]; ssimpl.
  - by rewrite str_app_nil_r.
  - rewrite (rev_str_acc (a ++ b)), (rev_str_acc a), IH, str_app_assoc. done.
Qed.

Lemma rev_str_involutive s : rev_str (rev_str s "") "" = s.
Proof.
  induction s as [|c s IH]; ssimpl; [done|].
  rewrite (rev_str_acc s (String c "")), rev_str_app, IH. done.
Qed.

Lemma rev_str_length s : String.length (rev_str s "") = String.length s.
Proof.
  induction s as [|c s IH]; ssimpl; [done|].
  rewrite rev_str_acc, str_length_app, IH. simpl. lia.
Qed.

Lemma split_here a r : exists p, p <> "" /\ String a r = p ++ r.
Proof. by exists (String a ""). Qed.

Lemma split_further a s r : (exists p, p <> "" /\ s = p ++ r) ->
  exists p, p <> "" /\ String a s = p ++ r.
Proof. intros (p & _ & ->). by exists (String a p). Qed.

Local Ltac split_prefix := repeat first [apply split_here | apply split_further].

(** The char decoded at either end is taken off that end. *)
Lemma next_char_split s c r : next_char s = Some (c, r) ->
  exists p, p <> "" /\ s = p ++ r.
Proof.
  unfold next_char. intros H.
  destruct s as [|a [|b [|x [|d s]]]]; try discriminate;
    repeat (case_match; simplify_eq/=); split_prefix.
Qed.

Lemma next_char_length s c r : next_char s = Some (c, r) -> String.length r < String.length s.
Proof.
  intros H. destruct (next_char_split s c r H) as (p & Hp & ->).
  rewrite str_length_app. destruct p; [done|]. simpl. lia.
Qed.

Lemma next_char_rev_split t c r : next_char_rev t = Some (r, c) ->
  exists p, p <> "" /\ t = p ++ r.
Proof.
  unfold next_char_rev. intros H.
  destruct t as [|a [|b [|x [|d t]]]]; try discriminate;
    repeat (case_match; simplify_eq/=); split_prefix.
Qed.

Lemma next_char_back_split s c r : next_char_back s = Some (r, c) ->
  exists p, p <> "" /\ s = r ++ p.
Proof.
  unfold next_char_back. destruct (next_char_rev (rev_str s "")) as [[r' c']|] eqn:E;
    [|discriminate].
  intros [= <- <-]. destruct (next_char_rev_split _ _ _ E) as (p & Hp & Hs).
  exists (rev_str p ""). split.
  { intros Hrev. apply (f_equal String.length) in Hrev. rewrite rev_str_length in Hrev.
    by destruct p. }
  rewrite <- (rev_str_involutive s), Hs, rev_str_app. done.
Qed.

Lemma next_char_back_length s c r : next_char_back s = Some (r, c) ->
  String.length r < String.length s.
Proof.
  intros H. destruct (next_char_back_split s c r H) as (p & Hp & ->).
  rewrite str_length_app. destruct p; [done|]. simpl. lia.
Qed.

(** The loops: with enough fuel, one more char is looked at. *)
Lemma trim_start_from_fuel n m s :
  String.length s <= n -> String.length s <= m -> trim_start_from n s = trim_start_from m s.
Proof.
  revert m s. induction n as [|n IH]; intros m s Hn Hm.
  - destruct s; [|simpl in Hn; lia]. by destruct m.
  - destruct m as [|m]; [destruct s; [done|simpl in Hm; lia]|]. simpl.
    destruct (next_char s) as [[c r]|] eqn:E; [|done].
    pose proof (next_char_length s c r E).
    destruct (is_whitespace c); [apply IH; lia|done].
Qed.

Lemma trim_start_unfold s : trim_start s =
  match next_char s with
  | Some (c, rest) => if is_whitespace c then trim_start rest else s
  | None => s
  end.
Proof.
  unfold trim_start. destruct s as [|a s']; [done|]. simpl String.length.
  cbn [trim_start_from]. destruct (next_char (String a s')) as [[c r]|] eqn:E; [|done].
  pose proof (next_char_length _ c r E) as Hl. simpl in Hl.
  destruct (is_whitespace c); [apply trim_start_from_fuel; lia|done].
Qed.

Lemma trim_end_from_fuel n m s :
  String.length s <= n -> String.length s <= m -> trim_end_from n s = trim_end_from m s.
Proof.
  revert m s. induction n as [|n IH]; intros m s Hn Hm.
  - destruct s; [|simpl in Hn; lia]. by destruct m.
  - destruct m as [|m]; [destruct s; [done|simpl in Hm; lia]|]. simpl.
    destruct (next_char_back s) as [[r c]|] eqn:E; [|done].
    pose proof (next_char_back_length s c r E).
    destruct (is_whitespace c); [apply IH; lia|done].
Qed.

Lemma trim_end_unfold s : trim_end s =
  match next_char_back s with
  | Some (rest, c) => if is_whitespace c then trim_end rest else s
  | None => s
  end.
Proof.
  unfold trim_end. destruct s as [|a s']; [done|]. simpl String.length.
  cbn [trim_end_from]. destruct (next_char_back (String a s')) as [[r c]|] eqn:E; [|done].
  pose proof (next_char_back_length _ c r E) as Hl. simpl in Hl.
  destruct (is_whitespace c); [apply trim_end_from_fuel; lia|done].
Qed.

(** Where the loops stop. *)
Lemma trim_start_front_ok s : front_ok (trim_start s).
Proof.
  induction s as [s IH] using (induction_ltof1 _ String.length).
  rewrite trim_start_unfold. unfold front_ok.
  destruct (next_char s) as [[c r]|] eqn:E; [|by rewrite E].
  destruct (is_whitespace c) eqn:Hc; [|by rewrite E].
  apply IH. unfold ltof. by apply (next_char_length s c r).
Qed.

Lemma trim_end_back_ok s : back_ok (trim_end s).
Proof.
  induction s as [s IH] using (induction_ltof1 _ String.length).
  rewrite trim_end_unfold. unfold back_ok.
  destruct (next_char_back s) as [[r c]|] eqn:E; [|by rewrite E].
  destruct (is_whitespace c) eqn:Hc; [|by rewrite E].
  apply IH. unfold ltof. by apply (next_char_back_length s c r).
Qed.

Lemma trim_end_prefix s : exists w, s = trim_end s ++ w.
Proof.
  induction s as [s IH] using (induction_ltof1 _ String.length).
  rewrite trim_end_unfold.
  destruct (next_char_back s) as [[r c]|] eqn:E; [|exists ""; by rewrite str_app_nil_r].
  destruct (is_whitespace c); [|exists ""; by rewrite str_app_nil_r].
  destruct (next_char_back_split s c r E) as (p & _ & Hs).
  destruct (IH r) as [w Hw]; [unfold ltof; by apply (next_char_back_length s c r)|].
  exists (w ++ p). by rewrite <- str_app_assoc, <- Hw.
Qed.

(** The first char of a prefix is the first char of the whole string, or
    is cut short. *)
Lemma front_ok_prefix t w : front_ok (t ++ w) -> front_ok t.
Proof.
  unfold front_ok, next_char.
  destruct t as [|a [|b [|x [|d t]]]]; ssimpl; [done| | | |];
    repeat (case_match; simplify_eq/=); done.
Qed.

Lemma trim_start_id s : front_ok s -> trim_start s = s.
Proof.
  unfold front_ok. intros H. rewrite trim_start_unfold.
  destruct (next_char s) as [[c r]|]; [by rewrite H|done].
Qed.

Lemma trim_end_id s : back_ok s -> trim_end s = s.
Proof.
  unfold back_ok. intros H. rewrite trim_end_unfold.
  destruct (next_char_back s) as [[r c]|]; [by rewrite H|done].
Qed.

Lemma trim_idempotent s : trim (trim s) = trim s.
Proof.
  unfold trim at 2 3. set (u := trim_start s). set (t := trim_end u).
  destruct (trim_end_prefix u) as [w Hw]. fold t in Hw.
  pose proof (trim_start_front_ok s) as Hu. fold u in Hu. rewrite Hw in Hu.
  unfold trim. rewrite (trim_start_id t (front_ok_prefix t w Hu)).
  apply trim_end_id, trim_end_back_ok.
Qed.

Lemma whitespace_chars_spec c : is_whitespace c = true -> c ∈ whitespace_chars.
Proof.
  unfold is_whitespace, white_space, whitespace_chars. intros H.
  rewrite !elem_of_cons.
  repeat (rewrite ?orb_true_iff, ?andb_true_iff, ?N.eqb_eq, ?N.leb_le, ?N.ltb_lt in H).
  lia.
Qed.

Lemma next_char_ws c s : is_whitespace c = true ->
  next_char (utf8_encode c ++ s) = Some (c, s).
Proof.
  intros H. apply whitespace_chars_spec in H. unfold whitespace_chars in H.
  repeat (apply elem_of_cons in H as [->|H]; [reflexivity|]). by apply elem_of_nil in H.
Qed.

Lemma next_char_rev_ws c t : is_whitespace c = true ->
  next_char_rev (rev_str (utf8_encode c) "" ++ t) = Some (t, c).
Proof.
  intros H. apply whitespace_chars_spec in H. unfold whitespace_chars in H.
  repeat (apply elem_of_cons in H as [->|H]; [reflexivity|]). by apply elem_of_nil in H.
Qed.

Lemma next_char_back_ws c s : is_whitespace c = true ->
  next_char_back (s ++ utf8_encode c) = Some (s, c).
Proof.
  intros H. unfold next_char_back. rewrite rev_str_app, next_char_rev_ws by done.
  by rewrite rev_str_involutive.
Qed.

Lemma utf8_str_app cs ds : utf8_str (cs ++ ds) = utf8_str cs ++ utf8_str ds.
Proof.
  induction cs as [|c cs IH]; simpl; [done|]. by rewrite IH, str_app_assoc.
Qed.

(** A char decoded in full is decoded the same way when more text follows. *)
Lemma next_char_app s c r q : next_char s = Some (c, r) -> next_char (s ++ q) = Some (c, r ++ q).
Proof.
  unfold next_char. destruct s as [|a [|b [|x [|d s]]]]; ssimpl; intros H;
    repeat (case_match; simplify_eq/=); done.
Qed.

(** Whitespace chars in front of a text, or after it, are removed. *)
Lemma trim_start_ws ws v : forallb is_whitespace ws = true ->
  trim_start (utf8_str ws ++ v) = trim_start v.
Proof.
  induction ws as [|c ws IH]; simpl; [done|]. intros H. apply andb_prop in H as [Hc H].
  rewrite str_app_assoc, trim_start_unfold, next_char_ws, Hc by done. auto.
Qed.

Lemma trim_end_ws ws v : forallb is_whitespace ws = true ->
  trim_end (v ++ utf8_str ws) = trim_end v.
Proof.
  induction ws as [|c ws IH] using rev_ind; simpl; [by rewrite str_app_nil_r|].
  rewrite forallb_app. simpl. intros H. apply andb_prop in H as [H Hc].
  rewrite andb_true_r in Hc.
  rewrite utf8_str_app. simpl. rewrite str_app_nil_r, <- str_app_assoc.
  rewrite trim_end_unfold, next_char_back_ws, Hc by done. auto.
Qed.

(** [trim] removes exactly the whitespace chars around a text that starts
    and ends with a char that is not whitespace. *)
Lemma trim_pad p v q :
  forallb is_whitespace p = true -> forallb is_whitespace q = true ->
  (v = "" \/ exists c r, next_char v = Some (c, r) /\ is_whitespace c = false) -> back_ok v ->
  trim (utf8_str p ++ v ++ utf8_str q) = v.
Proof.
  intros Hp Hq Hv Hb. unfold trim. rewrite trim_start_ws by done.
  destruct Hv as [-> | (c & r & Hn & Hc)].
  - rewrite str_app_nil_l, <- (str_app_nil_r (utf8_str q)), trim_start_ws by done.
    done.
  - rewrite trim_start_unfold, (next_char_app v c r (utf8_str q) Hn), Hc.
    rewrite trim_end_ws by done. by apply trim_end_id.
Qed.

(** A text equal to "quit" up to ASCII case starts with q or Q and ends
    with t or T. *)
Lemma quit_edges v : eq_ignore_ascii_case v "quit" = true ->
  (exists c r, next_char v = Some (c, r) /\ is_whitespace c = false) /\ back_ok v.
Proof.
  destruct v as [|a [|b [|c [|d [|e v]]]]]; ssimpl; try discriminate;
    try (rewrite !andb_false_r; discriminate).
  intros H. rewrite andb_true_r in H.
  apply andb_prop in H as [Ha H]. apply andb_prop in H as [_ H].
  apply andb_prop in H as [_ Hd].
  destruct a as [[] [] [] [] [] [] [] []]; vm_compute in Ha; try discriminate;
  destruct d as [[] [] [] [] [] [] [] []]; vm_compute in Hd; try discriminate;
  (split; [eexists _, _; split; reflexivity|unfold back_ok; reflexivity]).
Qed.

End TrimLemmas.

(* ------------------------------------------------------------------ *)
(** ** Text typed by the user, and the roles of the egui transcript *)
Module UserText.
Import Gui Props GuiInv GuiLemmas Shapes TrimLemmas.

Lemma trimmed_of_trim s : is_empty (trim s) = false -> trimmed_text (trim s).
Proof. split; [done|apply trim_idempotent]. Qed.

Lemma transcript_update_eq w f : inv w ->
  let w2 := edit (indicator (top_panel (receive w (fr_now f)) f) (fr_now f)) f in
  transcript (update w f) = transcript w ++
    (match channel w with m :: _ => [mkGMsg (cm_role m) (cm_content m) (fr_now f)] | [] => [] end) ++
    (if should_send w2 f then [mkGMsg "user" (trim (input w2)) (fr_now f)] else []).
Proof.
  intros Hinv w2. unfold update. fold w2.
  rewrite (transcript_send_button _ _ (inv_pre_send w f Hinv)).
  rewrite transcript_edit, transcript_indicator, transcript_top_panel.
  rewrite (transcript_receive _ _ Hinv). by rewrite app_assoc.
Qed.

Lemma is_typing_update w f :
  let w2 := edit (indicator (top_panel (receive w (fr_now f)) f) (fr_now f)) f in
  is_typing (update w f) = if should_send w2 f then true else is_typing w2.
Proof. intros w2. unfold update. fold w2. unfold send_button. by destruct (should_send w2 f). Qed.

Lemma is_typing_pre_send w f :
  is_typing (edit (indicator (top_panel (receive w (fr_now f)) f) (fr_now f)) f) =
  match channel w with _ :: _ => false | [] => is_typing w end.
Proof.
  destruct (pre_send_fields w f) as (_ & _ & _ & _ & _ & -> & _).
  unfold receive. by destruct (channel w).
Qed.

Lemma should_send_true w f : should_send w f = true ->
  is_typing w = false /\ is_empty (trim (input w)) = false.
Proof.
  unfold should_send. intros H. apply andb_prop in H as [H H3]. apply andb_prop in H as [_ H2].
  apply negb_true_iff in H2, H3. done.
Qed.

Lemma channel_waiting w : inv w -> channel w <> [] -> is_typing w = true.
Proof.
  intros (_ & _ & _ & _ & [(_ & _ & Hc & _) | (Ht & _)]) Hne; [congruence|done].
Qed.

Lemma channel_head_role w m rest : inv w -> channel w = m :: rest -> cm_role m = "assistant".
Proof. intros (_ & _ & _ & Hch & _) E. rewrite E in Hch. by inversion Hch. Qed.

Lemma is_typing_complete w i r : is_typing (complete w i r) = is_typing w.
Proof. unfold complete. by destruct (in_flight w !! i). Qed.

Lemma concat_repeat_comm (l : list string) n :
  concat (repeat l n) ++ l = l ++ concat (repeat l n).
Proof.
  induction n as [|n IH]; simpl; [by rewrite app_nil_r|].
  by rewrite <- app_assoc, IH.
Qed.

Lemma role_shape_reply n : role_shape n true ++ ["assistant"] = role_shape (S n) false.
Proof.
  unfold role_shape. simpl. rewrite !app_nil_r. f_equal.
  rewrite <- app_assoc. simpl.
  change ["user"; "assistant"] with (["user"; "assistant"] ++ []).
  rewrite app_assoc, concat_repeat_comm. by rewrite app_nil_r.
Qed.

Lemma role_shape_send n : role_shape n false ++ ["user"] = role_shape n true.
Proof. unfold role_shape. simpl. by rewrite app_nil_r. Qed.

Lemma reachable_user_text w : reachable w ->
  Forall (fun m => gm_role m = "user" -> trimmed_text (gm_content m)) (transcript w).
Proof.
  induction 1 as [t0|w e Hw IH].
  - unfold transcript. simpl. rewrite lookup_singleton_eq. simpl.
    constructor; [discriminate|constructor].
  - pose proof (reachable_inv w Hw) as Hinv. destruct e as [f|i r]; simpl.
    + rewrite (transcript_update_eq w f Hinv).
      apply Forall_app. split; [done|]. apply Forall_app. split.
      * destruct (channel w) as [|m rest] eqn:E; [constructor|].
        rewrite (channel_head_role w m rest Hinv E). constructor; [discriminate|constructor].
      * destruct (should_send _ f) eqn:Hs; [|constructor].
        apply should_send_true in Hs as [_ Hs].
        constructor; [|constructor]. intros _. by apply trimmed_of_trim.
    + by rewrite (transcript_complete w i r Hinv).
Qed.

Lemma reachable_role_shape w : reachable w ->
  exists n, gm_role <$> transcript w = role_shape n (is_typing w).
Proof.
  induction 1 as [t0|w e Hw IH].
  - exists 0. unfold transcript. simpl. by rewrite lookup_singleton_eq.
  - pose proof (reachable_inv w Hw) as Hinv. destruct IH as [n Hn].
    destruct e as [f|i r]; simpl.
    + rewrite (transcript_update_eq w f Hinv), (is_typing_update w f).
      rewrite (is_typing_pre_send w f).
      destruct (channel w) as [|m rest] eqn:E.
      * simpl.
        destruct (should_send _ f) eqn:Hs.
        -- apply should_send_true in Hs as [Ht _]. rewrite is_typing_pre_send, E in Ht.
           exists n. rewrite fmap_app, Hn, Ht. apply role_shape_send.
        -- exists n. by rewrite app_nil_r.
      * assert (Ht : is_typing w = true) by (apply channel_waiting; [done|congruence]).
        rewrite (channel_head_role w m rest Hinv E).
        destruct (should_send _ f) eqn:Hs; simpl.
        -- exists (S n). rewrite !fmap_app, Hn, Ht. simpl.
           rewrite <- role_shape_send, <- role_shape_reply. unfold role_shape. simpl. by rewrite <- !app_assoc.
        -- exists (S n). rewrite !fmap_app, Hn, Ht. simpl. rewrite <- role_shape_reply. unfold role_shape. simpl. by rewrite <- !app_assoc.
    + rewrite (transcript_complete w i r Hinv), is_typing_complete. eauto.
Qed.

(** The roles along any run: a submission adds one to the count of user
    messages, answered or not. *)
Lemma role_shape_step w e n : inv w ->
  gm_role <$> transcript w = role_shape n (is_typing w) ->
  exists n', gm_role <$> transcript (step w e) = role_shape n' (is_typing (step w e)) /\
    n' + Nat.b2n (is_typing (step w e)) = n + Nat.b2n (is_typing w) + Nat.b2n (submitted w e).
Proof.
  intros Hinv Hn. destruct e as [f|i r]; simpl.
  - rewrite (transcript_update_eq w f Hinv), (is_typing_update w f).
    rewrite (is_typing_pre_send w f).
    destruct (channel w) as [|m rest] eqn:E.
    + simpl. destruct (should_send _ f) eqn:Hs.
      * apply should_send_true in Hs as [Ht _]. rewrite is_typing_pre_send, E in Ht.
        exists n. rewrite fmap_app, Hn, Ht. split; [apply role_shape_send|simpl; lia].
      * exists n. rewrite app_nil_r. split; [done|simpl; lia].
    + assert (Ht : is_typing w = true) by (apply channel_waiting; [done|congruence]).
      rewrite (channel_head_role w m rest Hinv E).
      destruct (should_send _ f) eqn:Hs; simpl.
      * exists (S n). rewrite !fmap_app, Hn, Ht. simpl. split; [|lia].
        rewrite <- role_shape_send, <- role_shape_reply. unfold role_shape. simpl.
        by rewrite <- !app_assoc.
      * exists (S n). rewrite !fmap_app, Hn, Ht. simpl. split; [|lia].
        rewrite <- role_shape_reply. unfold role_shape. simpl. by rewrite <- !app_assoc.
  - rewrite (transcript_complete w i r Hinv), is_typing_complete. exists n. split; [done|lia].
Qed.

Lemma role_shape_run w es n : inv w ->
  gm_role <$> transcript w = role_shape n (is_typing w) ->
  exists n', gm_role <$> transcript (run w es) = role_shape n' (is_typing (run w es)) /\
    n' + Nat.b2n (is_typing (run w es)) = n + Nat.b2n (is_typing w) + sends w es.
Proof.
  revert w n. induction es as [|e es IH]; intros w n Hinv Hn; simpl.
  - exists n. split; [done|lia].
  - destruct (role_shape_step w e n Hinv Hn) as (n1 & Hn1 & Hc1).
    destruct (IH (step w e) n1 (inv_step w e Hinv) Hn1) as (n2 & Hn2 & Hc2).
    exists n2. unfold run in *. simpl. split; [done|].
    destruct (submitted w e); simpl in *; lia.
Qed.

Lemma current_model_indicator w now : current_model (indicator w now) = current_model w.
Proof. unfold indicator. by destruct (is_typing w), (typing_start w). Qed.

End UserText.

(* ------------------------------------------------------------------ *)
(** ** The terminal conversation *)
Module CliText.
Import Cli Shapes.

Lemma turn_user_text conv line r c :
  Forall (fun m => role m = "user" -> trimmed_text (content m)) conv ->
  (turn conv line r = Next c \/ turn conv line r = Fatal c) ->
  Forall (fun m => role m = "user" -> trimmed_text (content m)) c.
Proof.
  intros Hall Hc. unfold turn in Hc.
  destruct (eq_ignore_ascii_case (trim line) "quit"); [by destruct Hc|].
  destruct (is_empty (trim line)) eqn:He; [destruct Hc as [Hc|Hc]; inversion Hc; by subst|].
  assert (Hu : Forall (fun m => role m = "user" -> trimmed_text (content m))
                 (conv ++ [mkMsg "user" (trim line)])).
  { apply Forall_app. split; [done|]. constructor; [|constructor].
    intros _. by apply UserText.trimmed_of_trim. }
  destruct r as [|st [|[resp|]]]; simpl in Hc;
    try (destruct (negb (is_success st)));
    try (destruct (resp_choices resp));
    destruct Hc as [Hc|Hc]; inversion Hc; subst; try done.
  all: apply Forall_app; split; [done|]; constructor; [discriminate|constructor].
Qed.

Lemma run_user_text conv inputs :
  Forall (fun m => role m = "user" -> trimmed_text (content m)) conv ->
  Forall (fun m => role m = "user" -> trimmed_text (content m)) (snd (run conv inputs)).
Proof.
  revert conv. induction inputs as [|[line r] rest IH]; intros conv Hall; simpl; [done|].
  destruct (turn conv line r) as [|c|c] eqn:Ht; simpl; [done| |].
  - apply (turn_user_text conv line r c Hall). by right.
  - apply IH. apply (turn_user_text conv line r c Hall). by left.
Qed.

Lemma turn_cli_shape conv line r c :
  cli_shape conv -> (turn conv line r = Next c \/ turn conv line r = Fatal c) ->
  conv `prefix_of` c /\ cli_shape c.
Proof.
  intros Hs Hc. unfold turn in Hc.
  destruct (eq_ignore_ascii_case (trim line) "quit"); [by destruct Hc|].
  destruct (is_empty (trim line)); [destruct Hc as [Hc|Hc]; inversion Hc; by subst|].
  destruct r as [|st [|[resp|]]]; simpl in Hc;
    try (destruct (negb (is_success st)));
    try (destruct (resp_choices resp));
    destruct Hc as [Hc|Hc]; inversion Hc; subst; try done.
  all: first
    [ split; [by apply prefix_app_r|]; by constructor
    | rewrite <- app_assoc; simpl; split; [by apply prefix_app_r|]; by constructor ].
Qed.

Lemma run_cli_shape conv inputs :
  cli_shape conv -> conv `prefix_of` snd (run conv inputs) /\ cli_shape (snd (run conv inputs)).
Proof.
  revert conv. induction inputs as [|[line r] rest IH]; intros conv Hs; simpl; [done|].
  destruct (turn conv line r) as [|c|c] eqn:Ht; simpl; [done| |].
  - apply (turn_cli_shape conv line r c Hs). by right.
  - destruct (turn_cli_shape conv line r c Hs (or_introl Ht)) as [Hp Hc].
    destruct (IH c Hc) as [Hp' Hc']. split; [by trans c|done].
Qed.

End CliText.

(* ------------------------------------------------------------------ *)
(** ** Rendering of a message *)
Module ViewLemmas.
Import View Shapes TrimLemmas.

Lemma render_labels dark pre rest :
  Forall (fun l => is_fence l = false) pre ->
  render_lines dark false "" (pre ++ rest) =
    ((fun l => WLabel (label_of_line l)) <$> pre) ++ render_lines dark false "" rest.
Proof.
  induction 1 as [|l pre Hl Hpre IH]; [done|]. simpl. by rewrite Hl, IH.
Qed.

Lemma render_block dark code body rest :
  Forall (fun l => is_fence l = false) body ->
  render_lines dark true code (body ++ rest) = render_lines dark true (code ++ block_text body) rest.
Proof.
  intros Hb. revert code. induction Hb as [|l body Hl Hb IH]; intros code; simpl.
  - by rewrite str_app_nil_r.
  - rewrite Hl, IH. by rewrite !str_app_assoc.
Qed.

Lemma block_text_nonempty l body : is_empty (block_text (l :: body)) = false.
Proof. simpl. by destruct l. Qed.

Lemma is_star_true c : is_star c = true -> c = "*"%char.
Proof. unfold is_star. by intros ->%Ascii.eqb_eq. Qed.

Lemma replace_stars_head d r : is_star d = false ->
  replace_stars (String d r) = String d (replace_stars r).
Proof. intros Hd. destruct r as [|e r]; simpl; [done|]. by rewrite Hd. Qed.

Lemma replace_stars_cons2 c d r : replace_stars (String c (String d r)) =
  if is_star c && is_star d then replace_stars r else String c (replace_stars (String d r)).
Proof. reflexivity. Qed.

Lemma contains_stars_cons2 c d r : contains_stars (String c (String d r)) =
  (is_star c && is_star d) || contains_stars (String d r).
Proof. reflexivity. Qed.

Lemma replace_stars_clean_n n s : String.length s <= n -> contains_stars (replace_stars s) = false.
Proof.
  revert s. induction n as [|n IH]; intros s Hs.
  - destruct s; simpl in *; [done|lia].
  - destruct s as [|c [|d r]]; [done|done|]. simpl in Hs.
    rewrite replace_stars_cons2.
    destruct (is_star c && is_star d) eqn:Hcd; [apply IH; lia|].
    assert (Hx : contains_stars (replace_stars (String d r)) = false) by (apply IH; simpl; lia).
    destruct (replace_stars (String d r)) as [|e x] eqn:Ex; [done|].
    rewrite contains_stars_cons2, Hx, orb_false_r.
    destruct (is_star c) eqn:Hc; [|done]. simpl in Hcd.
    rewrite replace_stars_head in Ex by done. by inversion Ex; subst.
Qed.

Lemma replace_stars_clean s : contains_stars (replace_stars s) = false.
Proof. by apply (replace_stars_clean_n (String.length s)). Qed.

Lemma fmap_concat_repeat {A B} (f : A -> B) (l : list A) n :
  f <$> concat (repeat l n) = concat (repeat (f <$> l) n).
Proof. induction n as [|n IH]; simpl; [done|]. by rewrite fmap_app, IH. Qed.

Lemma bubble_shape dark n (waiting : bool) :
  (fun r => snd (bubble_style dark r)) <$> role_shape n waiting =
    AlignLeft :: concat (repeat [AlignRight; AlignLeft] n) ++
      (if waiting then [AlignRight] else []).
Proof.
  unfold role_shape. rewrite fmap_cons, fmap_app, fmap_concat_repeat.
  destruct dark, waiting; reflexivity.
Qed.

End ViewLemmas.

(* ------------------------------------------------------------------ *)
(** ** Start-up *)
Module StartupLemmas.
Import TrimLemmas.
Local Open Scope string_scope.
Import Startup.

Lemma header_value_ok_app a b :
  header_value_ok (a ++ b) = header_value_ok a && header_value_ok b.
Proof. induction a as [|c a IH]; [done|]. rewrite str_app_cons. simpl. by rewrite IH, andb_assoc. Qed.

Lemma header_value_ok_bearer k : header_value_ok ("Bearer " ++ k) = header_value_ok k.
Proof. by rewrite header_value_ok_app. Qed.

Lemma build_headers_spec k r t :
  build_headers k r t =
    if header_value_ok k && (match r with Some x => header_value_ok x | None => true end)
       && (match t with Some x => header_value_ok x | None => true end)
    then Some (match t with Some x => <["x-title" := x]> | None => id end
                 (match r with Some x => <["http-referer" := x]> | None => id end
                    (<["authorization" := "Bearer " ++ k]> (<["content-type" := "application/json"]> ∅))))
    else None.
Proof.
  unfold build_headers, header_from_str. rewrite header_value_ok_bearer.
  destruct (header_value_ok k); simpl; [|done].
  destruct r as [x|]; simpl; [destruct (header_value_ok x); simpl; [|done]|];
    destruct t as [y|]; simpl; try destruct (header_value_ok y); done.
Qed.

End StartupLemmas.


(* ------------------------------------------------------------------ *)
(** * The claims *)
Import Gui Props GuiInv GuiLemmas.

(** Sample states: the app right after one "hi" was sent at instant 1. *)
Definition frame_send (t : nat) (text : string) : Frame := mkFrame t false None (Some text) true.
Definition frame_idle (t : nat) : Frame := mkFrame t false None None false.
Definition waiting_world : World := step (new 0) (EFrame (frame_send 1 "hi")).

(** Sample server outcomes. *)
Definition choice (role content : string) : ChatChoice :=
  mkChatChoice (Some 0%N) (mkChatMessage role content) (Some "stop").
Definition reply_with (choices : list ChatChoice) : HttpResult :=
  Response 200 (BodyText (Some (mkResponse "gen-1" "chat.completion" 0%N choices))).
(** The scenario of the spec: "hello" sent, the server answers "hi there",
    the next frame takes the reply off the channel. *)
Definition hello_round : Frame * HttpResult * Frame :=
  (frame_send 1 "hello", reply_with [choice "assistant" "hi there"], frame_idle 2).
(** The thread of [waiting_world] finishes; the server labels its choice
    with the role "model". *)
Definition replied_world : World :=
  step waiting_world (EComplete 0 (reply_with [choice "model" "hi there"])).

(** Sample inputs of the further properties. *)
(** A session of the egui app: typing, a Send, frames while waiting, the
    reply, a blank Send while the reply is queued, then a second round. *)
Definition session_events : list Event :=
  [EFrame (mkFrame 1 false None (Some "hel") false); EFrame (frame_send 2 "hello");
   EFrame (frame_idle 3); EComplete 0 (reply_with [choice "assistant" "hi there"]);
   EFrame (frame_send 4 "  "); EFrame (frame_idle 5); EFrame (frame_send 6 "again");
   EComplete 0 (reply_with [choice "assistant" "hi again"]); EFrame (frame_idle 7)].
(** A terminal session: a line, a blank line, a line, then "QUIT". *)
Definition session_lines : list (string * HttpResult) :=
  [("hello", reply_with [choice "assistant" "hi there"]); ("   ", TransportError);
   ("again", reply_with [choice "assistant" "hi again"]); ("QUIT", TransportError);
   ("ignored", reply_with [choice "assistant" "unread"])].
Definition queued_world : World :=
  step waiting_world (EComplete 0 (reply_with [choice "assistant" "hello"])).
Definition blank_text : string := utf8_str [0xA0; 0x2009; 32]%N.
Definition model_frame : Frame := mkFrame 1 false (Some "google/gemini-pro") (Some "hi") true.
Definition plain_text : string :=
  ("# Title" ++ View.newline ++ "Some **bold** text")%string.
Definition code_text : string :=
  ("Code:" ++ View.newline ++ "```rust" ++ View.newline ++ "let x = 1;" ++ View.newline ++
   "```" ++ View.newline ++ "done")%string.
Definition open_code_text : string :=
  ("Code:" ++ View.newline ++ "```" ++ View.newline ++ View.newline)%string.
Definition key_only_env : Startup.Env := {["OPENROUTER_API_KEY" := "sk-or-1"]}.
Definition titled_env : Startup.Env := <["X_TITLE" := "Chat"]> key_only_env.
Definition newline_key_env : Startup.Env :=
  {["OPENROUTER_API_KEY" := ("sk-or-1" ++ View.newline)%string]}.

Lemma waiting_world_reachable : reachable waiting_world.
Proof. apply reach_step, reach_new. Qed.

(** C9: in the egui front end the transcript always starts with the
    assistant's welcome message (so it is never empty and its first role is
    "assistant"), and no event removes or rewrites a message: the transcript
    before any frame or thread completion is a prefix of the one after. *)
Theorem gui_transcript_starts_with_welcome (w : World) :
  reachable w ->
  (exists t0 rest, transcript w = mkGMsg "assistant" welcome_text t0 :: rest) /\
  (forall e, transcript w `prefix_of` transcript (step w e)).
Proof.
  intros Hw. pose proof (reachable_inv w Hw) as Hinv.
  split.
  - destruct Hinv as ((t0 & rest & H) & _). exists t0, rest.
    unfold transcript. by rewrite H.
  - intros e. by apply transcript_prefix_step.
Qed.

Lemma gui_transcript_starts_with_welcome_witness :
  reachable waiting_world /\
  ((exists t0 rest, transcript waiting_world = mkGMsg "assistant" welcome_text t0 :: rest) /\
   (forall e, transcript waiting_world `prefix_of` transcript (step waiting_world e))).
Proof.
  split; [exact waiting_world_reachable|].
  apply (gui_transcript_starts_with_welcome waiting_world waiting_world_reachable).
Defined.

(** C5: at most one thread started by [send_request] runs at any time, and
    a frame in which the app is still waiting after the channel check
    ([is_typing] true, nothing queued) appends nothing, starts no thread and
    stays waiting, whatever the user clicks or types. *)
Theorem gui_single_in_flight (w : World) :
  reachable w ->
  length (in_flight w) <= 1 /\
  (is_typing w = true -> channel w = [] -> forall f,
     transcript (update w f) = transcript w /\
     in_flight (update w f) = in_flight w /\
     is_typing (update w f) = true).
Proof.
  intros Hw. destruct (reachable_inv w Hw) as (_ & _ & _ & _ & Hp). split.
  - destruct Hp as [(_ & -> & _) | (_ & Hl)]; simpl; lia.
  - intros Ht Hc f. destruct (update_waiting w f Ht Hc) as (E1 & E2 & E3 & _ & E5 & _).
    unfold transcript. rewrite E1, E2. auto.
Qed.

Lemma gui_single_in_flight_witness :
  reachable waiting_world /\
  (length (in_flight waiting_world) <= 1 /\
   (is_typing waiting_world = true -> channel waiting_world = [] -> forall f,
      transcript (update waiting_world f) = transcript waiting_world /\
      in_flight (update waiting_world f) = in_flight waiting_world /\
      is_typing (update waiting_world f) = true)).
Proof.
  split; [exact waiting_world_reachable|].
  apply (gui_single_in_flight waiting_world waiting_world_reachable).
Defined.

(** C4: when a running thread finishes without a result (any failure
    path), nothing is sent on the channel, and from then on, whatever frames
    and completions follow, [is_typing] stays true and the channel stays
    empty: the app never leaves the waiting state through the channel. *)
Theorem gui_failed_dispatch_never_clears (w : World) (i : nat) (d : Dispatch) (r : HttpResult) :
  reachable w -> in_flight w !! i = Some d -> send_request_result r = None ->
  channel (complete w i r) = channel w /\
  (forall es, is_typing (run (complete w i r) es) = true /\
              channel (run (complete w i r) es) = []).
Proof.
  intros Hw Ei Hr. destruct (reachable_inv w Hw) as (_ & _ & _ & _ & Hp).
  assert (length (in_flight w) >= 1) by (apply lookup_lt_Some in Ei; lia).
  destruct Hp as [(_ & Hi & _) | (Ht & Hl)]; [rewrite Hi in Ei; done|].
  assert (channel w = []) as Hc by (destruct (channel w); simpl in *; [done|lia]).
  assert (length (delete i (in_flight w)) = 0) as Hd.
  { rewrite length_delete by eauto. lia. }
  assert (stuck (complete w i r)) as Hs.
  { unfold complete. rewrite Ei. unfold stuck. simpl. rewrite Hr.
    split; [done|]. split; [|done]. by apply length_zero_iff_nil. }
  split.
  - unfold complete. rewrite Ei. simpl. by rewrite Hr.
  - intros es. destruct (stuck_run _ es Hs) as (? & _ & ?). auto.
Qed.

Lemma gui_failed_dispatch_never_clears_witness :
  reachable waiting_world /\
  in_flight waiting_world !! 0 = Some (mkDispatch 1 "deepseek/deepseek-chat:free") /\
  send_request_result TransportError = None /\
  (channel (complete waiting_world 0 TransportError) = channel waiting_world /\
   (forall es, is_typing (run (complete waiting_world 0 TransportError) es) = true /\
               channel (run (complete waiting_world 0 TransportError) es) = [])).
Proof.
  split; [exact waiting_world_reachable|].
  split; [reflexivity|]. split; [reflexivity|].
  apply (gui_failed_dispatch_never_clears waiting_world 0
           (mkDispatch 1 "deepseek/deepseek-chat:free") TransportError
           waiting_world_reachable); reflexivity.
Defined.

(** C10: every reply the dispatcher produces has the literal role
    "assistant", whatever role the response body's first choice carries;
    so every message on the channel has that role, the message a frame
    takes off the channel and appends to the transcript has role
    "assistant", and the terminal loop appends its reply with role
    "assistant" too. *)
Theorem gui_reply_role_is_assistant (w : World) (now : nat) :
  reachable w ->
  (forall r m, send_request_result r = Some m -> cm_role m = "assistant") /\
  Forall (fun m => cm_role m = "assistant") (channel w) /\
  (channel w <> [] -> exists m,
     transcript (receive w now) = transcript w ++ [m] /\ gm_role m = "assistant") /\
  (forall conv line r m,
     eq_ignore_ascii_case (trim line) "quit" = false -> is_empty (trim line) = false ->
     send_request_result r = Some m ->
     Cli.turn conv line r =
       Cli.Next (conv ++ [Cli.mkMsg "user" (trim line); Cli.mkMsg "assistant" (cm_content m)])).
Proof.
  intros Hw. pose proof (reachable_inv w Hw) as Hinv.
  pose proof Hinv as (_ & _ & _ & Hch & _).
  split; [exact send_request_result_role|]. split; [exact Hch|].
  split; [|exact CliLemmas.turn_reply].
  intros Hne. rewrite (transcript_receive _ _ Hinv).
  destruct (channel w) as [|m rest]; [done|].
  eexists. split; [reflexivity|]. simpl. by inversion Hch.
Qed.

Lemma gui_reply_role_is_assistant_witness :
  reachable replied_world /\
  ((forall r m, send_request_result r = Some m -> cm_role m = "assistant") /\
   Forall (fun m => cm_role m = "assistant") (channel replied_world) /\
   (channel replied_world <> [] -> exists m,
      transcript (receive replied_world 2) = transcript replied_world ++ [m] /\
      gm_role m = "assistant") /\
   (forall conv line r m,
      eq_ignore_ascii_case (trim line) "quit" = false -> is_empty (trim line) = false ->
      send_request_result r = Some m ->
      Cli.turn conv line r =
        Cli.Next (conv ++ [Cli.mkMsg "user" (trim line); Cli.mkMsg "assistant" (cm_content m)]))).
Proof.
  split; [apply reach_step, waiting_world_reachable|].
  apply (gui_reply_role_is_assistant replied_world 2 (reach_step _ _ waiting_world_reachable)).
Defined.

(** C6: for a success status whose decoded body has a non-empty [choices]
    list, the dispatcher's reply is built from the first choice alone (the
    remaining choices [rest] play no part) with role "assistant"; in the egui
    front end the frame that takes it off the channel appends it with that
    frame's instant as timestamp, and the terminal loop appends it after the
    user message. *)
Theorem first_choice_only (st : nat) (resp : OpenRouterChatResponse)
    (c : ChatChoice) (rest : list ChatChoice) :
  is_success st = true -> resp_choices resp = c :: rest ->
  send_request_result (Response st (BodyText (Some resp))) =
    Some (mkChatMessage "assistant" (cm_content (ch_message c))) /\
  (forall w i d f, reachable w -> in_flight w !! i = Some d ->
     exists extra,
       transcript (update (complete w i (Response st (BodyText (Some resp)))) f) =
       transcript w ++ mkGMsg "assistant" (cm_content (ch_message c)) (fr_now f) :: extra) /\
  (forall conv line,
     eq_ignore_ascii_case (trim line) "quit" = false -> is_empty (trim line) = false ->
     Cli.turn conv line (Response st (BodyText (Some resp))) =
       Cli.Next (conv ++ [Cli.mkMsg "user" (trim line);
                          Cli.mkMsg "assistant" (cm_content (ch_message c))])).
Proof.
  intros Hst Hc.
  assert (send_request_result (Response st (BodyText (Some resp))) =
            Some (mkChatMessage "assistant" (cm_content (ch_message c)))) as Hr.
  { simpl. rewrite Hst, Hc. done. }
  split; [exact Hr|]. split.
  - intros w i d f Hw Ei. pose proof (reachable_inv w Hw) as Hinv.
    destruct (complete_running w i d (Response st (BodyText (Some resp))) Hinv Ei)
      as (_ & _ & Hch & Htr & _).
    rewrite Hr in Hch.
    pose proof (inv_complete w i (Response st (BodyText (Some resp))) Hinv) as Hinv'.
    destruct (transcript_update _ f Hinv') as [extra ->].
    rewrite (transcript_receive _ _ Hinv'), Hch, Htr.
    exists extra. simpl. by rewrite <- app_assoc.
  - intros conv line Hq He. exact (CliLemmas.turn_reply conv line _ _ Hq He Hr).
Qed.

Lemma first_choice_only_witness :
  is_success 200 = true /\
  resp_choices (mkResponse "gen-1" "chat.completion" 0%N
                  [choice "assistant" "first"; choice "assistant" "second"]) =
    choice "assistant" "first" :: [choice "assistant" "second"] /\
  (send_request_result (reply_with [choice "assistant" "first"; choice "assistant" "second"]) =
     Some (mkChatMessage "assistant" (cm_content (ch_message (choice "assistant" "first")))) /\
   (forall w i d f, reachable w -> in_flight w !! i = Some d ->
      exists extra,
        transcript (update (complete w i (reply_with [choice "assistant" "first"; choice "assistant" "second"])) f) =
        transcript w ++ mkGMsg "assistant" (cm_content (ch_message (choice "assistant" "first"))) (fr_now f) :: extra) /\
   (forall conv line,
      eq_ignore_ascii_case (trim line) "quit" = false -> is_empty (trim line) = false ->
      Cli.turn conv line (reply_with [choice "assistant" "first"; choice "assistant" "second"]) =
        Cli.Next (conv ++ [Cli.mkMsg "user" (trim line);
                           Cli.mkMsg "assistant" (cm_content (ch_message (choice "assistant" "first")))]))).
Proof.
  split; [reflexivity|]. split; [reflexivity|].
  apply (first_choice_only 200 (mkResponse "gen-1" "chat.completion" 0%N
           [choice "assistant" "first"; choice "assistant" "second"])
           (choice "assistant" "first") [choice "assistant" "second"]); reflexivity.
Defined.

(** C7: for a success status whose decoded body has an empty [choices]
    list, the dispatcher yields no reply: the finished thread sends nothing
    on the channel and the transcript is unchanged; the terminal loop only
    keeps the user message of that turn and goes on. *)
Theorem empty_choices_no_message (st : nat) (resp : OpenRouterChatResponse) :
  is_success st = true -> resp_choices resp = [] ->
  send_request_result (Response st (BodyText (Some resp))) = None /\
  (forall w i, reachable w ->
     channel (complete w i (Response st (BodyText (Some resp)))) = channel w /\
     transcript (complete w i (Response st (BodyText (Some resp)))) = transcript w) /\
  (forall conv line,
     eq_ignore_ascii_case (trim line) "quit" = false -> is_empty (trim line) = false ->
     Cli.turn conv line (Response st (BodyText (Some resp))) =
       Cli.Next (conv ++ [Cli.mkMsg "user" (trim line)])).
Proof.
  intros Hst Hc.
  assert (send_request_result (Response st (BodyText (Some resp))) = None) as Hr.
  { simpl. rewrite Hst, Hc. done. }
  split; [exact Hr|]. split.
  - intros w i Hw. split; [|apply transcript_complete, reachable_inv, Hw].
    unfold complete. destruct (in_flight w !! i); [|done]. rewrite Hr. done.
  - intros conv line Hq He. unfold Cli.turn. rewrite Hq, He, Hst, Hc. done.
Qed.

Lemma empty_choices_no_message_witness :
  is_success 200 = true /\
  resp_choices (mkResponse "gen-1" "chat.completion" 0%N []) = [] /\
  (send_request_result (reply_with []) = None /\
   (forall w i, reachable w ->
      channel (complete w i (reply_with [])) = channel w /\
      transcript (complete w i (reply_with [])) = transcript w) /\
   (forall conv line,
      eq_ignore_ascii_case (trim line) "quit" = false -> is_empty (trim line) = false ->
      Cli.turn conv line (reply_with []) = Cli.Next (conv ++ [Cli.mkMsg "user" (trim line)]))).
Proof.
  split; [reflexivity|]. split; [reflexivity|].
  apply (empty_choices_no_message 200 (mkResponse "gen-1" "chat.completion" 0%N [])); reflexivity.
Defined.

(** C2 (as the code has it): in the egui dispatcher a transport error, a
    non-success status, an undecodable body (and a body that cannot be read)
    all yield no reply: the finished thread sends nothing, the transcript and
    the pending flag are untouched, and the app keeps running. In the
    terminal loop a non-success status whose body is read, and an
    undecodable body, end the turn with only the user message appended and
    the loop goes on; a transport error, or a body that cannot be read, is
    returned from [main] by [?]. *)
Theorem dispatch_failures_gui_and_cli (st_bad st_ok : nat) (b : Body)
    (o : option OpenRouterChatResponse) :
  is_success st_bad = false -> is_success st_ok = true ->
  (forall r, r = TransportError \/ r = Response st_bad b \/
             r = Response st_ok (BodyText None) \/ r = Response st_ok BodyReadError ->
     send_request_result r = None /\
     (forall w i, reachable w ->
        channel (complete w i r) = channel w /\
        transcript (complete w i r) = transcript w /\
        is_typing (complete w i r) = is_typing w)) /\
  (forall conv line,
     eq_ignore_ascii_case (trim line) "quit" = false -> is_empty (trim line) = false ->
     Cli.turn conv line (Response st_bad (BodyText o)) =
       Cli.Next (conv ++ [Cli.mkMsg "user" (trim line)]) /\
     Cli.turn conv line (Response st_ok (BodyText None)) =
       Cli.Next (conv ++ [Cli.mkMsg "user" (trim line)]) /\
     Cli.turn conv line TransportError = Cli.Fatal (conv ++ [Cli.mkMsg "user" (trim line)]) /\
     Cli.turn conv line (Response st_bad BodyReadError) =
       Cli.Fatal (conv ++ [Cli.mkMsg "user" (trim line)]) /\
     Cli.turn conv line (Response st_ok BodyReadError) =
       Cli.Fatal (conv ++ [Cli.mkMsg "user" (trim line)])).
Proof.
  intros Hbad Hok. split.
  - intros r Hr.
    assert (send_request_result r = None) as Hn.
    { destruct Hr as [-> | [-> | [-> | ->]]]; simpl; rewrite ?Hbad, ?Hok; done. }
    split; [exact Hn|]. intros w i Hw.
    rewrite (transcript_complete _ _ _ (reachable_inv w Hw)).
    unfold complete. destruct (in_flight w !! i); [|done]. rewrite Hn. done.
  - intros conv line Hq He. unfold Cli.turn. rewrite Hq, He, Hbad, Hok. done.
Qed.

Lemma dispatch_failures_gui_and_cli_witness :
  is_success 500 = false /\ is_success 200 = true /\
  ((forall r, r = TransportError \/ r = Response 500 (BodyText None) \/
              r = Response 200 (BodyText None) \/ r = Response 200 BodyReadError ->
      send_request_result r = None /\
      (forall w i, reachable w ->
         channel (complete w i r) = channel w /\
         transcript (complete w i r) = transcript w /\
         is_typing (complete w i r) = is_typing w)) /\
   (forall conv line,
      eq_ignore_ascii_case (trim line) "quit" = false -> is_empty (trim line) = false ->
      Cli.turn conv line (Response 500 (BodyText None)) =
        Cli.Next (conv ++ [Cli.mkMsg "user" (trim line)]) /\
      Cli.turn conv line (Response 200 (BodyText None)) =
        Cli.Next (conv ++ [Cli.mkMsg "user" (trim line)]) /\
      Cli.turn conv line TransportError = Cli.Fatal (conv ++ [Cli.mkMsg "user" (trim line)]) /\
      Cli.turn conv line (Response 500 BodyReadError) =
        Cli.Fatal (conv ++ [Cli.mkMsg "user" (trim line)]) /\
      Cli.turn conv line (Response 200 BodyReadError) =
        Cli.Fatal (conv ++ [Cli.mkMsg "user" (trim line)]))).
Proof.
  split; [reflexivity|]. split; [reflexivity|].
  apply (dispatch_failures_gui_and_cli 500 200 (BodyText None) None); reflexivity.
Defined.

(** C2 fails as stated: in the terminal loop a transport error on the
    first line ends the loop with an error ([send().await?]); the second
    line is never read and no fault-free continuation happens. *)
Lemma cli_transport_error_ends_loop :
  Cli.run [] [("hi", TransportError); ("again", reply_with [choice "assistant" "hello"])] =
    (Cli.Failed, [Cli.mkMsg "user" "hi"]).
Proof. reflexivity. Qed.

(** C3 (as the code has it): the frame that starts a thread sets
    [is_typing] but leaves [typing_start] unset; a later frame that is still
    waiting with nothing queued and draws the indicator sets [typing_start]
    to its own instant; a frame that takes a reply off the channel (and does
    not start a new thread) clears both. *)
Theorem pending_state_lifecycle (w : World) (f : Frame) :
  reachable w ->
  (length (in_flight w) < length (in_flight (update w f)) ->
     is_typing (update w f) = true /\ typing_start (update w f) = None) /\
  (is_typing w = true -> channel w = [] -> typing_start w = None ->
     is_typing (update w f) = true /\ typing_start (update w f) = Some (fr_now f)) /\
  (channel w <> [] -> in_flight (update w f) = in_flight w ->
     is_typing (update w f) = false /\ typing_start (update w f) = None).
Proof.
  intros Hw. pose proof (reachable_inv w Hw) as Hinv.
  pose proof (inv_pre_send w f Hinv) as Hinv2.
  destruct (pre_send_fields w f) as (_ & _ & Hif & _ & _ & Hit & _).
  set (w2 := edit (indicator (top_panel (receive w (fr_now f)) f) (fr_now f)) f) in *.
  assert (update w f = send_button w2 f) as Hu by reflexivity.
  split; [|split].
  - rewrite Hu. intros Hlt.
    destruct (send_button_cases w2 f) as [(_ & E) | (_ & Hnt & _ & _ & _ & _ & _ & Ht & Hts)].
    + rewrite E, Hif in Hlt. lia.
    + split; [exact Ht|]. rewrite Hts.
      destruct Hinv2 as (_ & _ & _ & _ & [(_ & _ & _ & H) | (H & _)]); [exact H|congruence].
  - intros Ht Hc Hts. apply update_waiting with (f := f) in Hc as Hup; [|exact Ht].
    destruct Hup as (_ & _ & _ & _ & Ht' & _). split; [exact Ht'|].
    rewrite Hu.
    destruct (send_button_cases w2 f) as [(_ & E) | (_ & Hnt & _)];
      [|unfold w2 in Hnt; unfold receive, indicator in Hnt; rewrite Hc in Hnt;
        simpl in Hnt; rewrite Ht, Hts in Hnt; discriminate].
    rewrite E. unfold w2, receive, indicator. rewrite Hc. simpl. rewrite Ht, Hts. done.
  - intros Hc Hsame. rewrite Hu in *.
    destruct (send_button_cases w2 f) as [(_ & E) | (_ & _ & Hi & _)];
      [|rewrite Hi, Hif in Hsame;
        apply (f_equal length) in Hsame; rewrite length_app in Hsame; simpl in Hsame; lia].
    rewrite E. unfold w2, receive. destruct (channel w); [done|]. simpl. done.
Qed.

Lemma pending_state_lifecycle_witness :
  reachable waiting_world /\
  ((length (in_flight waiting_world) < length (in_flight (update waiting_world (frame_idle 2))) ->
      is_typing (update waiting_world (frame_idle 2)) = true /\
      typing_start (update waiting_world (frame_idle 2)) = None) /\
   (is_typing waiting_world = true -> channel waiting_world = [] -> typing_start waiting_world = None ->
      is_typing (update waiting_world (frame_idle 2)) = true /\
      typing_start (update waiting_world (frame_idle 2)) = Some (fr_now (frame_idle 2))) /\
   (channel waiting_world <> [] -> in_flight (update waiting_world (frame_idle 2)) = in_flight waiting_world ->
      is_typing (update waiting_world (frame_idle 2)) = false /\
      typing_start (update waiting_world (frame_idle 2)) = None)).
Proof.
  split; [exact waiting_world_reachable|].
  apply (pending_state_lifecycle waiting_world (frame_idle 2) waiting_world_reachable).
Defined.

(** C3 fails as stated: sending "hi" at instant 1 from a fresh app starts a
    thread and sets [is_typing], but [typing_start] stays [None], not
    [Some 1]. *)
Lemma launch_leaves_typing_start_unset :
  in_flight (new 0) = [] /\ length (in_flight waiting_world) = 1 /\
  is_typing waiting_world = true /\ typing_start waiting_world = None /\
  typing_start waiting_world <> Some 1.
Proof. repeat split; try reflexivity. discriminate. Qed.

(** C8: the conversation a thread receives is a clone stored apart from the
    app's conversation. At launch it is a fresh location holding exactly the
    transcript of that moment; afterwards, any appends to the transcript
    leave it as it is, and so does any sequence of frames and completions for
    as long as the thread still holds it. *)
Theorem snapshot_is_independent_copy (w : World) (f : Frame) (es : list Event)
    (ms : list GMsg) (l : nat) :
  reachable w ->
  (length (in_flight w) < length (in_flight (update w f)) ->
     exists d, in_flight (update w f) = in_flight w ++ [d] /\
       d_conversation d <> conversation (update w f) /\
       heap (update w f) !! d_conversation d = Some (transcript (update w f))) /\
  (l ∈ snapshots w ->
     append_all w ms !! l = heap w !! l /\
     (l ∈ snapshots (run w es) ->
        heap (run w es) !! l = heap w !! l /\ l <> conversation (run w es))).
Proof.
  intros Hw. pose proof (reachable_inv w Hw) as Hinv. split.
  - intros Hlt. unfold update.
    destruct (pre_send_fields w f) as (Hc & Hn & Hi & _).
    pose proof (inv_pre_send w f Hinv) as Hinv2.
    set (w2 := edit (indicator (top_panel (receive w (fr_now f)) f) (fr_now f)) f) in *.
    destruct (send_button_cases w2 f)
      as [(_ & E) | (_ & _ & Ei & Eh & _ & Ec & _)].
    + unfold update in Hlt. fold w2 in Hlt. rewrite E, Hi in Hlt. lia.
    + pose proof Hinv2 as (_ & Hlt2 & _).
      eexists. rewrite Ei, Hi. split; [reflexivity|]. cbn [d_conversation]. rewrite Ec.
      split; [lia|]. unfold transcript. rewrite Eh, Ec, lookup_insert_eq.
      rewrite lookup_insert_ne by lia. done.
  - intros Hl. destruct (snapshot_loc w l Hinv Hl) as [Hne _]. split.
    + unfold append_all. generalize (heap w). induction ms as [|m ms IH]; intros h; [done|].
      simpl. rewrite IH. by apply vec_push_other.
    + intros Hl'. split; [by apply heap_snapshot_run|]. by rewrite conversation_run.
Qed.

Lemma snapshot_is_independent_copy_witness :
  reachable waiting_world /\
  ((length (in_flight waiting_world) < length (in_flight (update waiting_world (frame_send 2 "x"))) ->
      exists d, in_flight (update waiting_world (frame_send 2 "x")) = in_flight waiting_world ++ [d] /\
        d_conversation d <> conversation (update waiting_world (frame_send 2 "x")) /\
        heap (update waiting_world (frame_send 2 "x")) !! d_conversation d =
          Some (transcript (update waiting_world (frame_send 2 "x")))) /\
   (1 ∈ snapshots waiting_world ->
      append_all waiting_world [mkGMsg "user" "later" 3] !! 1 = heap waiting_world !! 1 /\
      (1 ∈ snapshots (run waiting_world [EFrame (frame_send 2 "x")]) ->
         heap (run waiting_world [EFrame (frame_send 2 "x")]) !! 1 = heap waiting_world !! 1 /\
         1 <> conversation (run waiting_world [EFrame (frame_send 2 "x")])))).
Proof.
  split; [exact waiting_world_reachable|].
  apply (snapshot_is_independent_copy waiting_world (frame_send 2 "x")
           [EFrame (frame_send 2 "x")] [mkGMsg "user" "later" 3] 1 waiting_world_reachable).
Defined.

Lemma length_alternation n : length (concat (repeat ["user"; "assistant"] n)) = 2 * n.
Proof. induction n as [|n IH]; simpl; [done|]. rewrite IH. lia. Qed.

(** C1 (as the code has it). Terminal loop: for any input lines in which
    every line sent is answered, the loop never fails and the conversation
    holds exactly 2N messages whose roles alternate user, assistant, ...
    starting with user, N being the number of lines sent (blank lines are
    skipped; input after "quit" is not read). Egui front end: for any run
    from [ChatApp::new] (any frames, typing, waiting or idle, and thread
    completions in any order) that ends with the app not waiting, i.e. every
    submission was answered and the reply taken off the channel (a failed
    dispatch leaves it waiting for good), the app is idle and the transcript
    holds 2N + 1 messages: the assistant's welcome message followed by N
    user/assistant pairs, N being the number of submissions. Submissions are
    one at a time in both programs by construction. *)
Theorem one_at_a_time_transcripts (t0 : nat) (es : list Event)
    (inputs : list (string * HttpResult)) :
  Forall answered inputs ->
  (fst (Cli.run [] inputs) <> Cli.Failed /\
   length (snd (Cli.run [] inputs)) = 2 * cli_sends inputs /\
   map Cli.role (snd (Cli.run [] inputs)) = concat (repeat ["user"; "assistant"] (cli_sends inputs))) /\
  (is_typing (run (new t0) es) = false ->
   idle (run (new t0) es) /\
   length (transcript (run (new t0) es)) = 2 * sends (new t0) es + 1 /\
   map gm_role (transcript (run (new t0) es)) =
     "assistant" :: concat (repeat ["user"; "assistant"] (sends (new t0) es))).
Proof.
  intros Hinputs. split.
  - destruct (cli_run_answered [] inputs Hinputs) as [Hst Hroles]. simpl in Hroles.
    split; [exact Hst|]. split; [|exact Hroles].
    rewrite <- (length_map Cli.role), Hroles. apply length_alternation.
  - intros Ht.
    assert (Hinv : inv (run (new t0) es)) by (apply reachable_inv, reachable_run, reach_new).
    destruct (UserText.role_shape_run (new t0) es 0 (inv_new t0) eq_refl) as (n & Hn & Hc).
    rewrite Ht in Hn, Hc. simpl in Hc. rewrite Nat.add_0_r in Hc. subst n.
    unfold Shapes.role_shape in Hn. rewrite app_nil_r in Hn.
    assert (Hm : map gm_role (transcript (run (new t0) es)) =
                 "assistant" :: concat (repeat ["user"; "assistant"] (sends (new t0) es))) by exact Hn.
    split.
    + destruct Hinv as (_ & _ & _ & _ & [(_ & Hi & Hch & _) | (Ht' & _)]); [done|congruence].
    + split; [|exact Hm].
      rewrite <- (length_map gm_role), Hm. simpl. rewrite length_alternation. lia.
Qed.

Lemma one_at_a_time_transcripts_witness :
  Forall answered session_lines /\ is_typing (run (new 0) session_events) = false /\
  ((fst (Cli.run [] session_lines) <> Cli.Failed /\
    length (snd (Cli.run [] session_lines)) = 2 * 2 /\
    map Cli.role (snd (Cli.run [] session_lines)) = concat (repeat ["user"; "assistant"] 2)) /\
   (idle (run (new 0) session_events) /\
    length (transcript (run (new 0) session_events)) = 2 * 2 + 1 /\
    map gm_role (transcript (run (new 0) session_events)) =
      "assistant" :: concat (repeat ["user"; "assistant"] 2))).
Proof.
  assert (H1 : Forall answered session_lines)
    by (unfold session_lines; repeat apply Forall_cons_2; try apply Forall_nil_2;
        vm_compute; intros; congruence).
  assert (H2 : is_typing (run (new 0) session_events) = false) by (vm_compute; reflexivity).
  assert (H3 : cli_sends session_lines = 2) by (vm_compute; reflexivity).
  assert (H4 : sends (new 0) session_events = 2) by (vm_compute; reflexivity).
  destruct (one_at_a_time_transcripts 0 session_events session_lines H1) as [Hc Hg].
  rewrite H3 in Hc. rewrite H4 in Hg.
  split; [exact H1|]. split; [exact H2|]. split; [exact Hc|exact (Hg H2)].
Defined.

(** C1 fails as stated for the egui front end: after the one submission
    "hello" answered with "hi there", the transcript holds three messages and
    starts with the assistant's welcome, not two starting with user. *)
Lemma gui_one_submission_three_messages :
  map (fun m => (gm_role m, gm_content m))
      (transcript (run (new 0) (round_events hello_round))) =
    [("assistant", welcome_text); ("user", "hello"); ("assistant", "hi there")] /\
  length (transcript (run (new 0) (round_events hello_round))) <> 2 * 1 /\
  hd_error (map gm_role (transcript (run (new 0) (round_events hello_round)))) <> Some "user".
Proof. vm_compute. split; [reflexivity|]. split; discriminate. Qed.

(* ------------------------------------------------------------------ *)
(** * Further properties of the code *)
Import Shapes TrimLemmas UserText CliText ViewLemmas StartupLemmas.

(** The terminal loop ends on "quit" in any letter case with any whitespace
    chars around it, ASCII or not (such as the newline kept by [read_line],
    or a no-break space): the conversation is left as it is and the rest of
    the input is never read. *)
Theorem cli_quit_any_case_padded conv ws v ws' r rest :
  forallb is_whitespace ws = true -> forallb is_whitespace ws' = true ->
  eq_ignore_ascii_case v "quit" = true ->
  Cli.run conv (((utf8_str ws ++ v ++ utf8_str ws')%string, r) :: rest) = (Cli.Exited, conv).
Proof.
  intros Hp Hq Hv. destruct (quit_edges v Hv) as [Hf Hl].
  simpl. unfold Cli.turn. by rewrite (trim_pad ws v ws' Hp Hq (or_intror Hf) Hl), Hv.
Qed.

Lemma cli_quit_any_case_padded_witness :
  forallb is_whitespace [0xA0; 32]%N = true /\ forallb is_whitespace [0x3000; 10]%N = true /\
  eq_ignore_ascii_case "QuIt" "quit" = true /\
  Cli.run [] (((utf8_str [0xA0; 32]%N ++ "QuIt" ++ utf8_str [0x3000; 10]%N)%string, TransportError) ::
              [("hello", TransportError)]) = (Cli.Exited, []).
Proof.
  split; [reflexivity|]. split; [reflexivity|]. split; [reflexivity|].
  apply cli_quit_any_case_padded; reflexivity.
Defined.

(** A line made of whitespace chars only is skipped by the terminal loop:
    no request is made, whatever the server would answer, and the
    conversation is kept. *)
Theorem cli_blank_line_skipped conv ws r rest :
  forallb is_whitespace ws = true ->
  Cli.turn conv (utf8_str ws) r = Cli.Next conv /\
  Cli.run conv ((utf8_str ws, r) :: rest) = Cli.run conv rest.
Proof.
  intros Hw.
  assert (Ht : trim (utf8_str ws) = "").
  { pose proof (trim_pad ws "" [] Hw eq_refl (or_introl eq_refl) I) as Hp.
    simpl in Hp. by rewrite str_app_nil_l, str_app_nil_r in Hp. }
  assert (Hturn : Cli.turn conv (utf8_str ws) r = Cli.Next conv) by (unfold Cli.turn; by rewrite Ht).
  split; [done|]. simpl. by rewrite Hturn.
Qed.

Lemma cli_blank_line_skipped_witness :
  forallb is_whitespace [0x2003; 0x85; 13; 10]%N = true /\
  (Cli.turn [] (utf8_str [0x2003; 0x85; 13; 10]%N) TransportError = Cli.Next [] /\
   Cli.run [] ((utf8_str [0x2003; 0x85; 13; 10]%N, TransportError) :: []) = Cli.run [] []).
Proof.
  split; [reflexivity|]. apply cli_blank_line_skipped. reflexivity.
Defined.

(** In both front ends the text of every user message is non-empty and has
    no leading or trailing whitespace: it is the trimmed input. *)
Theorem user_messages_trimmed (w : Gui.World) inputs :
  Gui.reachable w ->
  Forall (fun m => Gui.gm_role m = "user" -> trimmed_text (Gui.gm_content m)) (Gui.transcript w) /\
  Forall (fun m => Cli.role m = "user" -> trimmed_text (Cli.content m)) (snd (Cli.run [] inputs)).
Proof.
  intros Hw. split; [by apply reachable_user_text|].
  apply run_user_text. constructor.
Qed.

Lemma user_messages_trimmed_witness :
  Gui.reachable waiting_world /\
  (Forall (fun m => Gui.gm_role m = "user" -> trimmed_text (Gui.gm_content m)) (Gui.transcript waiting_world) /\
   Forall (fun m => Cli.role m = "user" -> trimmed_text (Cli.content m))
     (snd (Cli.run [] [("  hi ", reply_with [choice "assistant" "hello"])]))).
Proof.
  split; [exact waiting_world_reachable|].
  apply (user_messages_trimmed waiting_world _ waiting_world_reachable).
Defined.

(** The egui transcript is the welcome message followed by user/assistant
    pairs, with one more user message exactly while waiting for a reply:
    two user messages never follow each other, nor two assistant messages. *)
Theorem gui_roles_alternate (w : Gui.World) :
  Gui.reachable w -> exists n, Gui.gm_role <$> Gui.transcript w = role_shape n (Gui.is_typing w).
Proof. apply reachable_role_shape. Qed.

Lemma gui_roles_alternate_witness :
  Gui.reachable waiting_world /\
  exists n, Gui.gm_role <$> Gui.transcript waiting_world = role_shape n (Gui.is_typing waiting_world).
Proof.
  split; [exact waiting_world_reachable|].
  apply (gui_roles_alternate waiting_world waiting_world_reachable).
Defined.

(** The bubbles of the egui transcript sit on the left (the welcome message),
    then alternately right and left, ending on the right exactly while
    waiting. *)
Theorem gui_bubbles_alternate dark (w : Gui.World) :
  Gui.reachable w ->
  exists n, (fun m => snd (View.bubble_style dark (Gui.gm_role m))) <$> Gui.transcript w =
    View.AlignLeft :: concat (repeat [View.AlignRight; View.AlignLeft] n) ++
      (if Gui.is_typing w then [View.AlignRight] else []).
Proof.
  intros Hw. destruct (reachable_role_shape w Hw) as [n Hn]. exists n.
  rewrite (list_fmap_compose Gui.gm_role (fun r => snd (View.bubble_style dark r))), Hn.
  apply bubble_shape.
Qed.

Lemma gui_bubbles_alternate_witness :
  Gui.reachable waiting_world /\
  exists n, (fun m => snd (View.bubble_style true (Gui.gm_role m))) <$> Gui.transcript waiting_world =
    View.AlignLeft :: concat (repeat [View.AlignRight; View.AlignLeft] n) ++
      (if Gui.is_typing waiting_world then [View.AlignRight] else []).
Proof.
  split; [exact waiting_world_reachable|].
  apply (gui_bubbles_alternate true waiting_world waiting_world_reachable).
Defined.

(** A model picked in the same frame as an accepted Send is the one the
    request is made with: the top panel runs before the Send button. The
    text box is cleared. A Send is accepted when the app is not waiting, or
    when a reply is queued: the frame first takes it off the channel, which
    ends the wait. *)
Theorem gui_send_uses_selected_model (w : Gui.World) f m :
  (Gui.is_typing w = false \/ Gui.channel w <> []) ->
  Gui.fr_select_model f = Some m -> Gui.fr_send f = true ->
  is_empty (trim (default (Gui.input w) (Gui.fr_edit f))) = false ->
  Gui.current_model (Gui.update w f) = m /\
  Gui.in_flight (Gui.update w f) = Gui.in_flight w ++ [Gui.mkDispatch (Gui.next_loc w) m] /\
  Gui.input (Gui.update w f) = "".
Proof.
  intros Ht Hm Hs He. unfold Gui.update.
  destruct (pre_send_fields w f) as (_ & Hn & Hi & _ & _ & Hty & Hin).
  set (w2 := Gui.edit (Gui.indicator (Gui.top_panel (Gui.receive w (Gui.fr_now f)) f) (Gui.fr_now f)) f) in *.
  assert (Hcm : Gui.current_model w2 = m).
  { unfold w2. cbn [Gui.current_model Gui.edit]. rewrite current_model_indicator.
    cbn [Gui.current_model Gui.top_panel]. by rewrite Hm. }
  assert (Hss : Gui.should_send w2 f = true).
  { unfold Gui.should_send. rewrite Hin, Hs, He, Hty. unfold Gui.receive.
    destruct (Gui.channel w); simpl; [|done].
    destruct Ht as [Ht|Ht]; [by rewrite Ht|done]. }
  unfold Gui.send_button. rewrite Hss. cbn [Gui.current_model Gui.in_flight Gui.input].
  by rewrite Hcm, Hi, Hn.
Qed.

Lemma gui_send_uses_selected_model_witness :
  (Gui.is_typing queued_world = false \/ Gui.channel queued_world <> []) /\
  Gui.fr_select_model model_frame = Some "google/gemini-pro" /\
  Gui.fr_send model_frame = true /\
  is_empty (trim (default (Gui.input queued_world) (Gui.fr_edit model_frame))) = false /\
  (Gui.current_model (Gui.update queued_world model_frame) = "google/gemini-pro" /\
   Gui.in_flight (Gui.update queued_world model_frame) =
     Gui.in_flight queued_world ++ [Gui.mkDispatch (Gui.next_loc queued_world) "google/gemini-pro"] /\
   Gui.input (Gui.update queued_world model_frame) = "").
Proof.
  assert (Hq : Gui.is_typing queued_world = false \/ Gui.channel queued_world <> [])
    by (right; vm_compute; discriminate).
  split; [exact Hq|]. do 3 (split; [reflexivity|]).
  apply (gui_send_uses_selected_model queued_world model_frame _ Hq); reflexivity.
Defined.

(** A Send that is not acted on (waiting with nothing received in the frame,
    or text made of whitespace chars only, such as no-break spaces) starts
    no request and leaves the typed text in the box. *)
Theorem gui_rejected_send_keeps_input (w : Gui.World) f :
  (Gui.is_typing w = true /\ Gui.channel w = []) \/
  is_empty (trim (default (Gui.input w) (Gui.fr_edit f))) = true ->
  Gui.input (Gui.update w f) = default (Gui.input w) (Gui.fr_edit f) /\
  Gui.in_flight (Gui.update w f) = Gui.in_flight w /\
  Gui.next_loc (Gui.update w f) = Gui.next_loc w.
Proof.
  intros H. unfold Gui.update.
  destruct (pre_send_fields w f) as (_ & Hn & Hi & _ & _ & Ht & Hin).
  set (w2 := Gui.edit (Gui.indicator (Gui.top_panel (Gui.receive w (Gui.fr_now f)) f) (Gui.fr_now f)) f) in *.
  assert (Hs : Gui.should_send w2 f = false).
  { unfold Gui.should_send. rewrite Hin.
    destruct H as [(Hty & Hc) | He].
    - rewrite Ht. unfold Gui.receive. rewrite Hc, Hty. by rewrite andb_false_r.
    - by rewrite He, andb_false_r. }
  unfold Gui.send_button. rewrite Hs. done.
Qed.

Lemma gui_rejected_send_keeps_input_witness :
  ((Gui.is_typing (Gui.new 0) = true /\ Gui.channel (Gui.new 0) = []) \/
   is_empty (trim (default (Gui.input (Gui.new 0)) (Gui.fr_edit (frame_send 1 blank_text)))) = true) /\
  (Gui.input (Gui.update (Gui.new 0) (frame_send 1 blank_text)) = blank_text /\
   Gui.in_flight (Gui.update (Gui.new 0) (frame_send 1 blank_text)) = Gui.in_flight (Gui.new 0) /\
   Gui.next_loc (Gui.update (Gui.new 0) (frame_send 1 blank_text)) = Gui.next_loc (Gui.new 0)).
Proof.
  assert (Hb : (Gui.is_typing (Gui.new 0) = true /\ Gui.channel (Gui.new 0) = []) \/
    is_empty (trim (default (Gui.input (Gui.new 0)) (Gui.fr_edit (frame_send 1 blank_text)))) = true)
    by (right; vm_compute; reflexivity).
  split; [exact Hb|].
  apply (gui_rejected_send_keeps_input (Gui.new 0) (frame_send 1 blank_text) Hb).
Defined.

(** A message with no fence line ("```" after trimming) is drawn as one label
    per line, in order. *)
Theorem markdown_plain_lines dark text :
  Forall (fun l => View.is_fence l = false) (View.lines text) ->
  View.format_message_text dark text =
    (fun l => View.WLabel (View.label_of_line l)) <$> View.lines text.
Proof.
  intros H. unfold View.format_message_text.
  rewrite <- (app_nil_r (View.lines text)), render_labels by done. by rewrite !app_nil_r.
Qed.

Lemma markdown_plain_lines_witness :
  Forall (fun l => View.is_fence l = false) (View.lines plain_text) /\
  View.format_message_text false plain_text =
    (fun l => View.WLabel (View.label_of_line l)) <$> View.lines plain_text.
Proof.
  assert (E : View.lines plain_text = ["# Title"; "Some **bold** text"]) by reflexivity.
  assert (H : Forall (fun l => View.is_fence l = false) (View.lines plain_text))
    by (rewrite E; repeat constructor).
  split; [exact H|]. apply (markdown_plain_lines false plain_text H).
Defined.

(** A closed fenced block is drawn as one code frame holding the trimmed
    lines between the fences; the fence lines (with any language tag) are not
    drawn, and the text after the block is drawn on its own. *)
Theorem markdown_closed_code_block dark text pre o body c rest :
  View.lines text = pre ++ o :: body ++ c :: rest ->
  Forall (fun l => View.is_fence l = false) pre ->
  Forall (fun l => View.is_fence l = false) body ->
  View.is_fence o = true -> View.is_fence c = true ->
  View.format_message_text dark text =
    ((fun l => View.WLabel (View.label_of_line l)) <$> pre) ++
    View.code_frame dark (block_text body) ++ View.render_lines dark false "" rest.
Proof.
  intros Hl Hpre Hbody Ho Hc. unfold View.format_message_text.
  rewrite Hl, render_labels by done. f_equal. simpl. rewrite Ho.
  rewrite render_block by done. simpl. rewrite Hc. done.
Qed.

Lemma markdown_closed_code_block_witness :
  View.lines code_text = ["Code:"] ++ "```rust" :: ["let x = 1;"] ++ "```" :: ["done"] /\
  Forall (fun l => View.is_fence l = false) ["Code:"] /\
  Forall (fun l => View.is_fence l = false) ["let x = 1;"] /\
  View.is_fence "```rust" = true /\ View.is_fence "```" = true /\
  View.format_message_text true code_text =
    ((fun l => View.WLabel (View.label_of_line l)) <$> ["Code:"]) ++
    View.code_frame true (block_text ["let x = 1;"]) ++ View.render_lines true false "" ["done"].
Proof.
  assert (H1 : View.lines code_text = ["Code:"] ++ "```rust" :: ["let x = 1;"] ++ "```" :: ["done"])
    by reflexivity.
  assert (H2 : Forall (fun l => View.is_fence l = false) ["Code:"]) by (repeat constructor).
  assert (H3 : Forall (fun l => View.is_fence l = false) ["let x = 1;"]) by (repeat constructor).
  do 5 (split; [first [exact H1 | exact H2 | exact H3 | reflexivity]|]).
  apply (markdown_closed_code_block true code_text _ _ _ _ _ H1 H2 H3); reflexivity.
Defined.

(** A fence that is never closed: the lines after it are drawn as a code
    frame at the end, unless there are none, in which case nothing is drawn
    for it (a blank line after it still gives an empty frame). *)
Theorem markdown_unclosed_code_block dark text pre o body :
  View.lines text = pre ++ o :: body ->
  Forall (fun l => View.is_fence l = false) pre ->
  Forall (fun l => View.is_fence l = false) body ->
  View.is_fence o = true ->
  View.format_message_text dark text =
    ((fun l => View.WLabel (View.label_of_line l)) <$> pre) ++
    match body with [] => [] | _ :: _ => View.code_frame dark (block_text body) end.
Proof.
  intros Hl Hpre Hbody Ho. unfold View.format_message_text.
  rewrite Hl, render_labels by done. f_equal. simpl. rewrite Ho.
  rewrite <- (app_nil_r body), render_block by done. rewrite app_nil_r. simpl.
  destruct body as [|l b]; [done|]. by rewrite str_app_nil_l, block_text_nonempty.
Qed.

Lemma markdown_unclosed_code_block_witness :
  View.lines open_code_text = ["Code:"] ++ "```" :: [""] /\
  Forall (fun l => View.is_fence l = false) ["Code:"] /\
  Forall (fun l => View.is_fence l = false) [""] /\
  View.is_fence "```" = true /\
  View.format_message_text false open_code_text =
    ((fun l => View.WLabel (View.label_of_line l)) <$> ["Code:"]) ++ View.code_frame false (block_text [""]).
Proof.
  assert (H1 : View.lines open_code_text = ["Code:"] ++ "```" :: [""]) by reflexivity.
  assert (H2 : Forall (fun l => View.is_fence l = false) ["Code:"]) by (repeat constructor).
  assert (H3 : Forall (fun l => View.is_fence l = false) [""]) by (repeat constructor).
  do 4 (split; [first [exact H1 | exact H2 | exact H3 | reflexivity]|]).
  apply (markdown_unclosed_code_block false open_code_text _ _ _ H1 H2 H3); reflexivity.
Defined.

(** Outside headings, a line with "**" is drawn bold with every "**"
    removed, so the markers are never shown. *)
Theorem markdown_bold_markers_removed line :
  String.prefix "# " line = false -> String.prefix "## " line = false ->
  View.contains_stars (View.rt_text (View.label_of_line line)) = false /\
  View.rt_strong (View.label_of_line line) = View.contains_stars line.
Proof.
  intros H1 H2. unfold View.label_of_line. rewrite H1, H2.
  destruct (View.contains_stars line) eqn:E; simpl; [by rewrite replace_stars_clean|done].
Qed.

Lemma markdown_bold_markers_removed_witness :
  String.prefix "# " "a **b** ***" = false /\ String.prefix "## " "a **b** ***" = false /\
  (View.contains_stars (View.rt_text (View.label_of_line "a **b** ***")) = false /\
   View.rt_strong (View.label_of_line "a **b** ***") = View.contains_stars "a **b** ***").
Proof.
  split; [reflexivity|]. split; [reflexivity|].
  apply markdown_bold_markers_removed; reflexivity.
Defined.

(** The "Thinking" dots cycle every two seconds. *)
Theorem thinking_label_period start now :
  start <= now ->
  View.thinking_label (Some start) (now + 2000) = View.thinking_label (Some start) now.
Proof.
  intros H. unfold View.thinking_label.
  replace (now + 2000 - start) with ((now - start) + 4 * 500) by lia.
  rewrite Nat.div_add by lia.
  replace ((now - start) / 500 + 4) with ((now - start) / 500 + 1 * 4) by lia.
  by rewrite Nat.Div0.mod_add.
Qed.

Lemma thinking_label_period_witness :
  3 <= 1700 /\ View.thinking_label (Some 3) (1700 + 2000) = View.thinking_label (Some 3) 1700.
Proof. split; [lia|]. apply thinking_label_period; lia. Defined.

(** When the key and the optional referer and title are valid header values,
    both programs start with the given or default URL and exactly these
    headers: JSON content type, "Bearer <key>", and the referer and title
    when they are set. *)
Theorem startup_config (env : Startup.Env) k :
  env !! "OPENROUTER_API_KEY" = Some k -> Startup.header_value_ok k = true ->
  (forall x, env !! "HTTP_REFERER" = Some x -> Startup.header_value_ok x = true) ->
  (forall x, env !! "X_TITLE" = Some x -> Startup.header_value_ok x = true) ->
  exists c, Startup.cli_startup env = Startup.Started c /\ Startup.gui_startup env = Startup.Started c /\
    Startup.cfg_api_key c = k /\
    Startup.cfg_url c = default Startup.default_url (env !! "OPENROUTER_API_URL") /\
    Startup.cfg_headers c !! "content-type" = Some "application/json" /\
    Startup.cfg_headers c !! "authorization" = Some ("Bearer " ++ k)%string /\
    Startup.cfg_headers c !! "http-referer" = env !! "HTTP_REFERER" /\
    Startup.cfg_headers c !! "x-title" = env !! "X_TITLE" /\
    (forall n, n ∉ ["content-type"; "authorization"; "http-referer"; "x-title"] ->
       Startup.cfg_headers c !! n = None).
Proof.
  intros Hk Hok Hr Ht. unfold Startup.cli_startup, Startup.gui_startup.
  rewrite Hk, build_headers_spec, Hok.
  destruct (env !! "HTTP_REFERER") as [x|] eqn:Er;
    [rewrite (Hr x eq_refl)|];
    (destruct (env !! "X_TITLE") as [y|] eqn:Et; [rewrite (Ht y eq_refl)|]); simpl;
    eexists; do 4 (split; [reflexivity|]);
    (split; [by simplify_map_eq|]); (split; [by simplify_map_eq|]);
    (split; [by simplify_map_eq|]); (split; [by simplify_map_eq|]);
    intros n Hn; rewrite !not_elem_of_cons in Hn; destruct Hn as (H1 & H2 & H3 & H4 & _);
    cbn [Startup.cfg_headers]; unfold id; repeat (rewrite lookup_insert_ne by congruence); by rewrite lookup_empty.
Qed.

Lemma startup_config_witness :
  titled_env !! "OPENROUTER_API_KEY" = Some "sk-or-1" /\ Startup.header_value_ok "sk-or-1" = true /\
  (forall x, titled_env !! "HTTP_REFERER" = Some x -> Startup.header_value_ok x = true) /\
  (forall x, titled_env !! "X_TITLE" = Some x -> Startup.header_value_ok x = true) /\
  exists c, Startup.cli_startup titled_env = Startup.Started c /\ Startup.gui_startup titled_env = Startup.Started c /\
    Startup.cfg_api_key c = "sk-or-1" /\
    Startup.cfg_url c = default Startup.default_url (titled_env !! "OPENROUTER_API_URL") /\
    Startup.cfg_headers c !! "content-type" = Some "application/json" /\
    Startup.cfg_headers c !! "authorization" = Some ("Bearer " ++ "sk-or-1")%string /\
    Startup.cfg_headers c !! "http-referer" = titled_env !! "HTTP_REFERER" /\
    Startup.cfg_headers c !! "x-title" = titled_env !! "X_TITLE" /\
    (forall n, n ∉ ["content-type"; "authorization"; "http-referer"; "x-title"] ->
       Startup.cfg_headers c !! n = None).
Proof.
  assert (H1 : titled_env !! "OPENROUTER_API_KEY" = Some "sk-or-1") by reflexivity.
  assert (H2 : Startup.header_value_ok "sk-or-1" = true) by reflexivity.
  assert (H3 : forall x, titled_env !! "HTTP_REFERER" = Some x -> Startup.header_value_ok x = true)
    by (intros x Hx; vm_compute in Hx; discriminate).
  assert (H4 : forall x, titled_env !! "X_TITLE" = Some x -> Startup.header_value_ok x = true)
    by (intros x Hx; vm_compute in Hx; injection Hx as <-; reflexivity).
  split; [exact H1|]. split; [exact H2|]. split; [exact H3|]. split; [exact H4|].
  apply (startup_config titled_env "sk-or-1" H1 H2 H3 H4).
Defined.

(** A key, referer or title that is not a valid header value (for instance
    one holding a newline or another control character) stops both programs
    before any request: the terminal one returns an error from [main], the
    egui one panics. *)
Theorem startup_invalid_header (env : Startup.Env) k :
  env !! "OPENROUTER_API_KEY" = Some k ->
  Startup.header_value_ok k = false \/
  (exists x, env !! "HTTP_REFERER" = Some x /\ Startup.header_value_ok x = false) \/
  (exists x, env !! "X_TITLE" = Some x /\ Startup.header_value_ok x = false) ->
  Startup.cli_startup env = Startup.Errored /\ Startup.gui_startup env = Startup.Panicked.
Proof.
  intros Hk Hbad. unfold Startup.cli_startup, Startup.gui_startup.
  rewrite Hk, build_headers_spec.
  assert (Hf : (Startup.header_value_ok k &&
     match env !! "HTTP_REFERER" with Some x => Startup.header_value_ok x | None => true end &&
     match env !! "X_TITLE" with Some x => Startup.header_value_ok x | None => true end) = false).
  { destruct Hbad as [-> | [(x & -> & ->) | (x & -> & ->)]];
      [done | by rewrite andb_false_r | by rewrite andb_false_r]. }
  by rewrite Hf.
Qed.

Lemma startup_invalid_header_witness :
  newline_key_env !! "OPENROUTER_API_KEY" = Some ("sk-or-1" ++ View.newline)%string /\
  (Startup.header_value_ok ("sk-or-1" ++ View.newline)%string = false \/
   (exists x, newline_key_env !! "HTTP_REFERER" = Some x /\ Startup.header_value_ok x = false) \/
   (exists x, newline_key_env !! "X_TITLE" = Some x /\ Startup.header_value_ok x = false)) /\
  (Startup.cli_startup newline_key_env = Startup.Errored /\
   Startup.gui_startup newline_key_env = Startup.Panicked).
Proof.
  assert (H1 : newline_key_env !! "OPENROUTER_API_KEY" = Some ("sk-or-1" ++ View.newline)%string)
    by reflexivity.
  assert (H2 : Startup.header_value_ok ("sk-or-1" ++ View.newline)%string = false) by reflexivity.
  split; [exact H1|]. split; [by left|].
  apply (startup_invalid_header newline_key_env _ H1). by left.
Defined.

(** The terminal conversation only grows, and it is always a sequence of
    user messages each possibly followed by the assistant's reply: an
    assistant message always comes right after a user message. *)
Theorem cli_conversation_shape conv inputs :
  cli_shape conv ->
  conv `prefix_of` snd (Cli.run conv inputs) /\ cli_shape (snd (Cli.run conv inputs)).
Proof. apply run_cli_shape. Qed.

Lemma cli_conversation_shape_witness :
  cli_shape [] /\
  ([] `prefix_of` snd (Cli.run [] [("hi", Response 500 (BodyText None)); ("again", reply_with [choice "assistant" "ok"])]) /\
   cli_shape (snd (Cli.run [] [("hi", Response 500 (BodyText None)); ("again", reply_with [choice "assistant" "ok"])]))).
Proof. split; [constructor|]. apply cli_conversation_shape. constructor. Defined.
